(** * Endpoint selection, policy store and path discovery of the log agent

    A shallow embedding of three components of the agent and the
    properties established about them:

    - [AccessPicker] (package client): the round-robin endpoint picker;
    - [ACLManager] (package file): the hot-reloaded allow/block/filter policy;
    - [GlobSearcher] (package file): the asynchronous glob discovery cache.

    Go values are modelled as follows.  An [int32] is a [Z] with the
    wrap-around written out ([int32]); a Go [string] is a [string]; a slice is
    a [list]; a Go [map] and a [sync.Map] are [gmap]s; a pointer is an address
    into an explicit heap; a run-time panic is the [None] of an [option].
    Library functions that are not part of the sources (regexp, path,
    doublestar, os, json) are operations of type classes. *)

From Stdlib Require Import ZArith Lia List Ascii String Permutation.
From stdpp Require Import base option list gmap strings fin_maps.

Open Scope Z_scope.

(** ** Part I: the model *)

(** *** Go primitives *)

(** Go's [error] interface: [None] is [nil]. *)
Definition error := option string.

Definition is_nil (e : error) : bool :=
  match e with None => true | Some _ => false end.

(** Conversion to [int32], and the result of 32-bit signed arithmetic:
    two's complement wrap-around. *)
Definition int32 (z : Z) : Z := (z + 2 ^ 31) mod 2 ^ 32 - 2 ^ 31.

Definition MaxInt32 : Z := 2 ^ 31 - 1.

(** [len(s)] of a slice, as a Go [int]. *)
Definition len {A : Type} (l : list A) : Z := Z.of_nat (length l).

(** [strings.Split(s, sep)] for a separator of one character: the pieces
    of [s] between the separators, one more than there are separators. *)
Fixpoint Split (s : string) (sep : ascii) : list string :=
  match s with
  | EmptyString => [EmptyString]
  | String c rest =>
      if Ascii.eqb c sep then EmptyString :: Split rest sep
      else
        match Split rest sep with
        | [] => [String c EmptyString]
        | piece :: pieces => String c piece :: pieces
        end
  end.

(** [strings.Join(elems, sep)] for a separator of one character. *)
Fixpoint Join (elems : list string) (sep : ascii) : string :=
  match elems with
  | [] => EmptyString
  | [e] => e
  | e :: rest => String.append e (String sep (Join rest sep))
  end.

(** [strings.TrimLeft(s, cutset)] for a cutset of one character. *)
Fixpoint TrimLeft (s : string) (cut : ascii) : string :=
  match s with
  | EmptyString => EmptyString
  | String c rest => if Ascii.eqb c cut then TrimLeft rest cut else s
  end.

(** *** package regexp, for the patterns the agent compiles

    The matcher follows the leftmost-first (backtracking priority) semantics
    of Go's regexp on the constructs [serverInfoPattern] uses: literals, [.]
    (any character but a newline), greedy and lazy stars, capture groups. *)

Module Regexp.

Inductive re :=
| Lit (c : ascii)
| Dot
| Cat (r1 r2 : re)
| Star (greedy : bool) (r : re)
| Group (i : nat) (r : re).

Definition newline : ascii := Ascii.ascii_of_nat 10.

(** The text between two positions of the input, the second a suffix of
    the first. *)
Definition consumed (s s' : list ascii) : string :=
  string_of_list_ascii (take (length s - length s') s).

(** [backtrack r s caps k]: match [r] at the head of [s], then run the
    continuation [k] on the rest; alternatives are tried in priority
    order and the first success wins.  [caps] holds the text of each group,
    by group number. *)
Fixpoint backtrack (r : re) (s : list ascii) (caps : list string)
    (k : list ascii -> list string -> option (list string)) {struct r}
    : option (list string) :=
  match r with
  | Lit c =>
      match s with
      | c' :: s' => if Ascii.eqb c c' then k s' caps else None
      | [] => None
      end
  | Dot =>
      match s with
      | c' :: s' => if Ascii.eqb c' newline then None else k s' caps
      | [] => None
      end
  | Cat r1 r2 =>
      backtrack r1 s caps (fun s' caps' => backtrack r2 s' caps' k)
  | Group i r' =>
      backtrack r' s caps (fun s' caps' => k s' (<[i := consumed s s']> caps'))
  | Star greedy r' =>
      (fix loop (fuel : nat) (s : list ascii) (caps : list string)
         : option (list string) :=
         match fuel with
         | O => k s caps
         | S fuel' =>
             let again (_ : unit) :=
               backtrack r' s caps
                 (fun s' caps' =>
                    if (length s' <? length s)%nat then loop fuel' s' caps'
                    else None) in
             if greedy then
               match again tt with
               | Some res => Some res
               | None => k s caps
               end
             else
               match k s caps with
               | Some res => Some res
               | None => again tt
               end
         end) (length s) s caps
  end.

(** The loop of a star, on its own: [m] matches the starred expression.
    [backtrack (Star greedy r) s caps k] is
    [star_loop (backtrack r) greedy k (length s) s caps]. *)
Section StarLoop.
Variable m : list ascii -> list string ->
             (list ascii -> list string -> option (list string)) ->
             option (list string).
Variable greedy : bool.
Variable k : list ascii -> list string -> option (list string).

Fixpoint star_loop (fuel : nat) (s : list ascii) (caps : list string)
    : option (list string) :=
  match fuel with
  | O => k s caps
  | S fuel' =>
      let again (_ : unit) :=
        m s caps
          (fun s' caps' =>
             if (length s' <? length s)%nat
             then star_loop fuel' s' caps'
             else None) in
      if greedy then
        match again tt with
        | Some res => Some res
        | None => k s caps
        end
      else
        match k s caps with
        | Some res => Some res
        | None => again tt
        end
  end.

End StarLoop.

(** A match that starts at the head of [s]; group 0 is the whole match. *)
Definition match_here (r : re) (ngroups : nat) (s : list ascii)
    : option (list string) :=
  backtrack r s (replicate (S ngroups) EmptyString)
    (fun s' caps => Some (<[O := consumed s s']> caps)).

(** The leftmost match. *)
Fixpoint find (r : re) (ngroups : nat) (s : list ascii)
    : option (list string) :=
  match match_here r ngroups s with
  | Some caps => Some caps
  | None =>
      match s with
      | [] => None
      | _ :: s' => find r ngroups s'
      end
  end.

(** The method [FindStringSubmatch] of a compiled pattern: [nil] when there is no match, else the
    whole match followed by the text of each group. *)
Definition FindStringSubmatch (r : re) (ngroups : nat) (s : string)
    : list string :=
  match find r ngroups (list_ascii_of_string s) with
  | Some caps => caps
  | None => []
  end.

End Regexp.

(** *** Library operations used by package client *)

(** An [*http.Response], as far as the picker reads it: what [io.Copy]
    gets out of the body, and its error. *)
Record Response := mkResponse {
  Body : string * error
}.

(** [httpClient.Get(url)]; the first argument numbers the requests of one
    refresh, so that the same address may answer differently each time.
    A [nil] response is [None]. *)
Class Http_lib := {
  http_Get : nat -> string -> option Response * error
}.

(** [json.Unmarshal(b, &acr)] and [json.Unmarshal(b, &sl)], where [acr] and
    [sl] are themselves pointers to a fresh [AccessServerResponse] and a
    fresh [ServerList]: what the pointer points to afterwards, given by the
    field [WemqAccessServer], and the error.  The decoder is handed a
    pointer to the pointer, so the JSON value null sets the pointer to
    [nil], which is [None], and returns no error. *)
Class Json_client_lib := {
  json_AccessServerResponse : string -> option string * error;
  json_ServerList : string -> option string * error
}.

(** *** package client: AccessPicker *)

Module AccessPicker.

Record t := mk {
  CCEndpoint : list string;
  CCUri : string;
  idc : string;
  accessEndpointList : list string;
  idx : Z   (* *atomic.Int32 *)
}.

Definition with_idx (ap : t) (v : Z) : t :=
  mk (CCEndpoint ap) (CCUri ap) (idc ap) (accessEndpointList ap) v.

Definition with_list (ap : t) (l : list string) : t :=
  mk (CCEndpoint ap) (CCUri ap) (idc ap) l (idx ap).

(** [NewAccessPicker]: [r] is the value drawn by [rand.Int31()], a
    non-negative 31-bit integer; the start index is [r % 100]. *)
Definition NewAccessPicker (ccEndpoint : list string) (ccUri idc : string) (r : Z) : t :=
  let ri := Z.rem r 100 in
  mk ccEndpoint ccUri idc [] ri.

(** [ap.idx.Add(1)]: the new value is returned and stored. *)
Definition idx_Add (ap : t) (delta : Z) : Z * t :=
  let v := int32 (idx ap + delta) in (v, with_idx ap v).

(** Indexing a slice with an [int32]; out of range is a run-time panic. *)
Definition index (l : list string) (i : Z) : option string :=
  if i <? 0 then None else l !! Z.to_nat i.

(** [Pick], run without interference.  [None] is a run-time panic
    (index out of range, or integer division by zero). *)
Definition Pick (ap : t) : option (string * t) :=
  if len (accessEndpointList ap) =? 0 then Some (EmptyString, ap)
  else
    let n := int32 (len (accessEndpointList ap)) in
    if n =? 0 then None
    else
      let '(added, ap1) := idx_Add ap 1 in
      let next := Z.rem added n in
      let ap2 := with_idx ap1 next in
      match index (accessEndpointList ap2) next with
      | Some ep => Some (ep, ap2)
      | None => None
      end.

(** [n] calls of [Pick] one after the other; the endpoints returned, in
    order. *)
Fixpoint Picks (n : nat) (ap : t) : option (list string * t) :=
  match n with
  | O => Some ([], ap)
  | S n' =>
      match Pick ap with
      | None => None
      | Some (ep, ap') =>
          match Picks n' ap' with
          | None => None
          | Some (eps, ap'') => Some (ep :: eps, ap'')
          end
      end
  end.

(** The assignment that ends [syncAccessEpOnce]. *)
Definition setEndpoints (ap : t) (endpointList : list string) : t :=
  with_list ap endpointList.

(** The states the picker goes through: built by [NewAccessPicker], then
    any sequence of completed [Pick] calls and list replacements. *)
Inductive reachable : t -> Prop :=
| reach_new ccEndpoint ccUri idc r :
    0 <= r < 2 ^ 31 ->
    reachable (NewAccessPicker ccEndpoint ccUri idc r)
| reach_Pick ap ep ap' :
    reachable ap -> Pick ap = Some (ep, ap') -> reachable ap'
| reach_sync ap l :
    reachable ap -> len l <= MaxInt32 -> reachable (setEndpoints ap l).

(** **** Concurrent callers

    [idx] is an atomic integer, so [Add] and [Store] are each one atomic
    step, but a [Pick] is two of them.  [callers] holds the goroutines that
    are between the [Add] and the [Store] of a [Pick], each with the [next]
    it computed; every other goroutine is at the entry of [Pick]. *)
Record machine := mkMachine {
  shared : t;
  callers : gmap nat Z
}.

(** One atomic step of goroutine [g].  The result is [None] on a panic,
    and otherwise the endpoint returned if this step completes a [Pick]. *)
Definition step (g : nat) (m : machine) : option (option string * machine) :=
  let ap := shared m in
  match callers m !! g with
  | None =>
      if len (accessEndpointList ap) =? 0 then Some (Some EmptyString, m)
      else
        let n := int32 (len (accessEndpointList ap)) in
        if n =? 0 then None
        else
          let '(added, ap1) := idx_Add ap 1 in
          let next := Z.rem added n in
          Some (None, mkMachine ap1 (<[g := next]> (callers m)))
  | Some next =>
      let ap2 := with_idx ap next in
      match index (accessEndpointList ap2) next with
      | Some ep => Some (Some ep, mkMachine ap2 (delete g (callers m)))
      | None => None
      end
  end.

(** A schedule names the goroutine that takes each step; [run] collects the
    endpoints in the order in which the calls return. *)
Fixpoint run (sched : list nat) (m : machine) : option (list string * machine) :=
  match sched with
  | [] => Some ([], m)
  | g :: sched' =>
      match step g m with
      | None => None
      | Some (out, m') =>
          match run sched' m' with
          | None => None
          | Some (eps, m'') =>
              Some (match out with Some ep => ep :: eps | None => eps end, m'')
          end
      end
  end.

Definition start (ap : t) : machine := mkMachine ap ∅.

(** **** Parsing a server record

    [serverInfoPattern], compiled: a lazy group ip, a colon, a lazy group
    port, a hash, a lazy group weight, a literal bar, and a greedy group
    idc; each group is a star of [.]. *)
Definition serverInfoPattern : Regexp.re :=
  Regexp.Cat (Regexp.Group 1 (Regexp.Star false Regexp.Dot))
 (Regexp.Cat (Regexp.Lit ":")
 (Regexp.Cat (Regexp.Group 2 (Regexp.Star false Regexp.Dot))
 (Regexp.Cat (Regexp.Lit "#")
 (Regexp.Cat (Regexp.Group 3 (Regexp.Star false Regexp.Dot))
 (Regexp.Cat (Regexp.Lit "|")
             (Regexp.Group 4 (Regexp.Star true Regexp.Dot))))))).

(** [ap.pattern.FindStringSubmatch(s)] *)
Definition pattern_FindStringSubmatch (s : string) : list string :=
  Regexp.FindStringSubmatch serverInfoPattern 4 s.

(** [matches[i]], used where [i] is in range. *)
Definition at_ (matches : list string) (i : nat) : string :=
  nth i matches EmptyString.

(** [parseAccessServerInfo], the version that returns early on a short
    submatch list. *)
Definition parseAccessServerInfo (s : string) : string * string * string :=
  let matches := pattern_FindStringSubmatch s in
  if len matches <? 5 then (EmptyString, EmptyString, EmptyString)
  else (at_ matches 1, at_ matches 2, at_ matches 4).

(** The body of [for i, m := range matches] of the other version, from
    index [i] on. *)
Fixpoint range_matches (i : nat) (matches : list string)
    (acc : string * string * string) : string * string * string :=
  match matches with
  | [] => acc
  | m :: rest =>
      let '(ip, port, idc) := acc in
      let ip := if (i =? 1)%nat then m else ip in
      let port := if (i =? 2)%nat then m else port in
      let idc := if (i =? 4)%nat then m else idc in
      range_matches (S i) rest (ip, port, idc)
  end.

(** [parseAccessServerInfo], the version that ranges over the submatch
    list. *)
Definition parseAccessServerInfo_range (s : string) : string * string * string :=
  let matches := pattern_FindStringSubmatch s in
  range_matches 0 matches (EmptyString, EmptyString, EmptyString).

(** The records of a server list that [syncAccessEpOnce] keeps, as
    [ip:port] endpoints. *)
Fixpoint endpointsOf (idc : string) (serverInfoStrs : list string) : list string :=
  match serverInfoStrs with
  | [] => []
  | s :: rest =>
      let '(ip, port, idc') := parseAccessServerInfo s in
      if String.eqb ip EmptyString || String.eqb port EmptyString
         || String.eqb idc' EmptyString
      then endpointsOf idc rest
      else if negb (String.eqb idc EmptyString) then
        if String.eqb idc' idc
        then String.append ip (String ":" port) :: endpointsOf idc rest
        else endpointsOf idc rest
      else String.append ip (String ":" port) :: endpointsOf idc rest
  end.

(** **** Refreshing the endpoint list *)

(** [NewAccessPicker] as the sources build [CCEndpoint]: the base URLs are
    the pieces of [ccEndpoint] between semicolons. *)
Definition NewAccessPicker_split (ccEndpoint ccUri idc : string) (r : Z) : t :=
  NewAccessPicker (Split ccEndpoint ";") ccUri idc r.

(** [getCCAddress]; [idx] is a Go [int].  [None] is a run-time panic. *)
Definition getCCAddress (ap : t) (idx : Z) : option string :=
  let n := len (CCEndpoint ap) in
  let idx' :=
    if idx >=? n then (if n =? 0 then None else Some (Z.rem idx n))
    else Some idx in
  match idx' with
  | None => None
  | Some i =>
      match index (CCEndpoint ap) i with
      | Some base =>
          Some (String.append base (String "/" (TrimLeft (CCUri ap) "/")))
      | None => None
      end
  end.

(** The loop [for n := range ap.CCEndpoint] of [syncAccessEpOnce], from
    index [n] on, over the base URLs still to try; it ends at the first
    request without an error.  The result holds the addresses requested,
    in order, and the last [response] and [err]. *)
Fixpoint tryEndpoints `{Http_lib} (ap : t) (n : nat) (remaining : list string)
    (response : option Response) (err : error)
    : option (list string * option Response * error) :=
  match remaining with
  | [] => Some ([], response, err)
  | _ :: rest =>
      match getCCAddress ap (Z.of_nat n) with
      | None => None
      | Some ccAddress =>
          let '(response, err) := http_Get n ccAddress in
          if is_nil err then Some ([ccAddress], response, err)
          else
            match tryEndpoints ap (S n) rest response err with
            | None => None
            | Some (requested, response', err') =>
                Some (ccAddress :: requested, response', err')
            end
      end
  end.

(** [syncAccessEpOnce]: the addresses requested and the picker afterwards.
    [None] is a run-time panic: an index out of range in [getCCAddress], or
    the dereference of a [nil] response, [acr] or [sl]. *)
Definition syncAccessEpOnce `{Http_lib} `{Json_client_lib} (ap : t)
    : option (list string * t) :=
  match tryEndpoints ap O (CCEndpoint ap) None None with
  | None => None
  | Some (requested, response, err) =>
      if negb (is_nil err) then Some (requested, ap)
      else
        match response with
        | None => None
        | Some resp =>
            let '(buf, err) := Body resp in
            if negb (is_nil err) then Some (requested, ap)
            else
              let '(acr, err) := json_AccessServerResponse buf in
              if negb (is_nil err) then Some (requested, ap)
              else
                match acr with
                | None => None
                | Some acr_WemqAccessServer =>
                    let '(sl, err) := json_ServerList acr_WemqAccessServer in
                    if negb (is_nil err) then Some (requested, ap)
                    else
                      match sl with
                      | None => None
                      | Some sl_WemqAccessServer =>
                          let serverInfoStrs := Split sl_WemqAccessServer ";" in
                          let endpointList :=
                            endpointsOf (idc ap) serverInfoStrs in
                          Some (requested, setEndpoints ap endpointList)
                      end
                end
        end
  end.

(** **** Vocabulary of the refresh properties *)

(** A record of the server list, [ip:port#weight|idc]. *)
Definition record (ip port weight idc : string) : string :=
  String.append ip (String ":"
    (String.append port (String "#"
      (String.append weight (String "|" idc))))).

(** The character [c] does not occur in [s], nor does a newline. *)
Definition plain (c : ascii) (s : string) : Prop :=
  Forall (fun x => x <> c /\ x <> Regexp.newline) (list_ascii_of_string s).

(** The endpoint [syncAccessEpOnce] appends for a record. *)
Definition endpoint (ip port : string) : string :=
  String.append ip (String ":" port).

(** A record that [syncAccessEpOnce] keeps when the picker's idc is [idc]. *)
Definition kept (idc : string) (s : string) (e : string) : Prop :=
  exists ip port idc',
    parseAccessServerInfo s = (ip, port, idc')
    /\ ip <> EmptyString /\ port <> EmptyString /\ idc' <> EmptyString
    /\ (idc = EmptyString \/ idc' = idc)
    /\ e = endpoint ip port.

(** The addresses [getCCAddress] builds for the base URLs, in order. *)
Definition ccAddresses (ap : t) : list string :=
  map (fun base => String.append base (String "/" (TrimLeft (CCUri ap) "/")))
    (CCEndpoint ap).

(** The character [c] does not occur in [s]. *)
Definition free (c : ascii) (s : string) : Prop :=
  ~ In c (list_ascii_of_string s).

(** A server entry [(ip, port, weight, idc)] whose record parses back and
    is not dropped as malformed. *)
Definition wellformed (r : string * string * string * string) : Prop :=
  let '(ip, port, weight, idc) := r in
  plain ":" ip /\ plain "#" port /\ plain "|" weight
  /\ plain Regexp.newline idc
  /\ ip <> EmptyString /\ port <> EmptyString /\ idc <> EmptyString.

(** The entry passes the locality filter of a picker whose idc is [idc]. *)
Definition selected (idc : string) (r : string * string * string * string) : bool :=
  let '(_, _, _, idc') := r in
  String.eqb idc EmptyString || String.eqb idc' idc.

Definition record_of (r : string * string * string * string) : string :=
  let '(ip, port, weight, idc) := r in record ip port weight idc.

Definition endpoint_of (r : string * string * string * string) : string :=
  let '(ip, port, _, _) := r in endpoint ip port.

(** **** Vocabulary of the round-robin properties *)

(** The element at a position that is in range. *)
Definition endpointAt (l : list string) (i : Z) : string :=
  nth (Z.to_nat i) l EmptyString.

(** The positions a round robin visits in [n] picks, from cursor [c] over a
    list of [k] endpoints. *)
Definition cycle (c k : Z) (n : nat) : list Z :=
  map (fun i => (c + Z.of_nat i) mod k) (seq 1 n).

(** How often position [j] occurs. *)
Definition times (j : Z) (positions : list Z) : Z :=
  Z.of_nat (count_occ Z.eq_dec positions j).

(** What holds of the machine between steps, for a bound [B] on the cursor
    when no call is under way: every [Add] not yet followed by its [Store]
    has raised the cursor by one, and every [next] held is a position of
    the list. *)
Definition in_step (B : Z) (m : machine) : Prop :=
  0 <= idx (shared m) <= B + Z.of_nat (size (callers m))
  /\ forall g next,
       callers m !! g = Some next ->
       0 <= next < len (accessEndpointList (shared m)).

(** What a call may return: the empty string on an empty list, an element
    of the list otherwise. *)
Definition picked_from (l : list string) (ep : string) : Prop :=
  match l with
  | [] => ep = EmptyString
  | _ => ep ∈ l
  end.

(** The cursor values the picker holds between calls. *)
Definition cursor_ok (ap : t) : Prop :=
  0 <= idx ap < MaxInt32 /\ len (accessEndpointList ap) <= MaxInt32.

End AccessPicker.

(** *** Library operations used by package file *)

(** [regexp.MatchString(pattern, s)]: whether [s] contains a match of
    [pattern], or the error of compiling [pattern]. *)
Class Regexp_lib := {
  regexp_MatchString : string -> string -> bool * error
}.

(** [path.Match(pattern, name)]: shell-style match of the whole [name], or
    the error of a malformed pattern. *)
Class Path_lib := {
  path_Match : string -> string -> bool * error
}.

(** [doublestar.Glob(pattern)]: the paths on disk that match, or the error
    of a malformed pattern. *)
Class Doublestar_lib := {
  doublestar_Glob : string -> list string * error
}.

(** What [os.Stat] and [time.Now] answer while the worker handles one task:
    the modification time of a path ([None] when it cannot be stat'd) and
    the current instant, both in nanoseconds. *)
Record filesystem := mkFilesystem {
  ModTime : string -> option Z;
  Now : Z
}.

(** [strings.HasSuffix(s, suffix)] *)
Definition HasSuffix (s suffix : string) : bool :=
  (String.length suffix <=? String.length s)%nat
  && String.eqb
       (substring (String.length s - String.length suffix)
          (String.length suffix) s)
       suffix.

(** *** package file: ACLManager *)

Module ACLManager.

Record FilterCase := mkFilterCase {
  Key : string;
  Value : string;
  ExcludePath : list string;
  Suffix : list string
}.

(** A Go map is a [gmap]; the nil map is the empty one (its [len] is 0 and
    ranging over it yields nothing). *)
Record ACLConfig := mkACLConfig {
  AllowList : gmap string string;
  BlockList : gmap string string;
  FilterOptions : list FilterCase;
  DefaultFilterOption : FilterCase;
  TailingCompressed : bool;
  ArchivedFormat : list string
}.

(** [ACLConfig{}] *)
Definition zeroFilterCase : FilterCase :=
  mkFilterCase EmptyString EmptyString [] [].

Definition zeroACLConfig : ACLConfig :=
  mkACLConfig ∅ ∅ [] zeroFilterCase false [].

#[export] Instance FilterCase_eq_dec : EqDecision FilterCase.
Proof. solve_decision. Defined.

#[export] Instance ACLConfig_eq_dec : EqDecision ACLConfig.
Proof. solve_decision. Defined.

(** [json.Unmarshal(b, &cfg)] on a fresh [ACLConfig]: the value left in
    [cfg] and the error. *)
Class Json_lib := {
  json_Unmarshal : string -> ACLConfig * error
}.

(** A [*ACLConfig] is an address ([nat]) in a heap of configurations; a
    [model.LabelSet] is a [gmap string string]. *)
Record t := mk {
  aclFilepath : string;
  heap : gmap nat ACLConfig;
  cfg : nat
}.

(** [*m.cfg] *)
Definition deref (m : t) : ACLConfig :=
  default zeroACLConfig (heap m !! cfg m).

(** **** reflect.DeepEqual on the values [syncOnce] passes to it

    The two arguments are [interface{}] values: each carries its dynamic
    type.  Values of distinct types are never deeply equal; structs are
    deeply equal when their fields are; pointers when they are the same
    pointer or point to deeply equal values. *)
Inductive go_type := TyACLConfig | TyPtrACLConfig.

Inductive any :=
| AnyACLConfig (c : ACLConfig)
| AnyPtrACLConfig (p : nat).

Definition TypeOf (x : any) : go_type :=
  match x with
  | AnyACLConfig _ => TyACLConfig
  | AnyPtrACLConfig _ => TyPtrACLConfig
  end.

#[export] Instance go_type_eq_dec : EqDecision go_type.
Proof. solve_decision. Defined.

Definition deepValueEqual (h : gmap nat ACLConfig) (x y : any) : bool :=
  match x, y with
  | AnyACLConfig c1, AnyACLConfig c2 => bool_decide (c1 = c2)
  | AnyPtrACLConfig p1, AnyPtrACLConfig p2 =>
      bool_decide (p1 = p2) || bool_decide (h !! p1 = h !! p2)
  | _, _ => false
  end.

Definition reflect_DeepEqual (h : gmap nat ACLConfig) (x y : any) : bool :=
  if bool_decide (TypeOf x = TypeOf y) then deepValueEqual h x y else false.

(** [NewACLManager], before its first [syncOnce]: [cfg] points to a fresh
    [ACLConfig{}]. *)
Definition NewACLManager (aclFilepath : string) : t :=
  mk aclFilepath {[ O := zeroACLConfig ]} O.

(** The address of a local variable that escapes: one not in use. *)
Definition new_addr (h : gmap nat ACLConfig) : nat := fresh (dom h).

(** [syncOnce]; [file] is what [ioutil.ReadFile(m.aclFilepath)] returns. *)
Definition syncOnce `{Json_lib} (file : string * error) (m : t) : t :=
  let '(b, err) := file in
  if negb (is_nil err) then m
  else
    let '(cfg, err) := json_Unmarshal b in
    if negb (is_nil err) then m
    else if reflect_DeepEqual (heap m) (AnyACLConfig cfg) (AnyPtrACLConfig (ACLManager.cfg m))
    then m
    else
      let p := new_addr (heap m) in   (* &cfg *)
      mk (aclFilepath m) (<[p := cfg]> (heap m)) p.

(** [syncOnce] of the other version of the file, which has no comparison
    before the assignment. *)
Definition syncOnce_assign `{Json_lib} (file : string * error) (m : t) : t :=
  let '(b, err) := file in
  if negb (is_nil err) then m
  else
    let '(cfg, err) := json_Unmarshal b in
    if negb (is_nil err) then m
    else
      let p := new_addr (heap m) in
      mk (aclFilepath m) (<[p := cfg]> (heap m)) p.

(** The method [TailingCompressed]. *)
Definition TailingCompressed' (m : t) : bool := TailingCompressed (deref m).

(** [string(labels[model.LabelName(l)])]: the empty string for a label
    that is absent. *)
Definition label (labels : gmap string string) (l : string) : string :=
  default EmptyString (labels !! l).

(** [matched, err := regexp.MatchString(v, s)] followed by the test
    [err == nil && matched]. *)
Definition matches `{Regexp_lib} (v s : string) : bool :=
  let '(matched, err) := regexp_MatchString v s in
  is_nil err && matched.

(** The body of [for l, v := range m.cfg.AllowList], over the entries in the
    order in which the run time yields them. *)
Fixpoint range_AllowList `{Regexp_lib} (labels : gmap string string)
    (entries : list (string * string)) (allow : bool) : bool :=
  match entries with
  | [] => allow
  | (l, v) :: rest =>
      range_AllowList labels rest
        (if matches v (label labels l) then true else allow)
  end.

(** The body of [for l, v := range m.cfg.BlockList]. *)
Fixpoint range_BlockList `{Regexp_lib} (labels : gmap string string)
    (entries : list (string * string)) (allow : bool) : bool :=
  match entries with
  | [] => allow
  | (l, v) :: rest =>
      range_BlockList labels rest
        (if matches v (label labels l) then false else allow)
  end.

(** [IsAllow] when the two maps are ranged over in the orders [allowOrder]
    and [blockOrder]: Go leaves the iteration order of a map unspecified. *)
Definition IsAllow_in `{Regexp_lib} (allowOrder blockOrder : list (string * string))
    (m : t) (labels : gmap string string) : bool :=
  let allow := true in
  let allow :=
    if negb (Z.of_nat (size (AllowList (deref m))) =? 0)
    then range_AllowList labels allowOrder false
    else allow in
  range_BlockList labels blockOrder allow.

(** [IsAllow], ranging in the order of [map_to_list]. *)
Definition IsAllow `{Regexp_lib} (m : t) (labels : gmap string string) : bool :=
  IsAllow_in (map_to_list (AllowList (deref m)))
    (map_to_list (BlockList (deref m))) m labels.

(** The loop of [GetFilterOption], with the final [return] of the default. *)
Fixpoint range_FilterOptions `{Regexp_lib} (labels : gmap string string)
    (fs : list FilterCase) (dflt : FilterCase) : FilterCase :=
  match fs with
  | [] => dflt
  | f :: rest =>
      match labels !! Key f with
      | Some v =>
          if matches (Value f) v then f
          else range_FilterOptions labels rest dflt
      | None => range_FilterOptions labels rest dflt
      end
  end.

Definition GetFilterOption `{Regexp_lib} (m : t) (labels : gmap string string) : FilterCase :=
  range_FilterOptions labels (FilterOptions (deref m))
    (DefaultFilterOption (deref m)).


(** A regex that does not compile: [MatchString] returns an error whatever
    the text. *)
Definition invalid_regex `{Regexp_lib} (v : string) : Prop :=
  forall s, snd (regexp_MatchString v s) <> None.

(** The label set matches some entry of a list: the value of the entry's
    label (empty when absent) matches the entry's regex. *)
Definition entry_matches `{Regexp_lib} (labels : gmap string string)
    (e : string * string) : bool :=
  matches (snd e) (label labels (fst e)).

Definition matches_some `{Regexp_lib} (labels : gmap string string)
    (list : gmap string string) : Prop :=
  exists l v, list !! l = Some v /\ matches v (label labels l) = true.

(** A manager whose active policy is [c]. *)
Definition serving (c : ACLConfig) : t := mk EmptyString {[ O := c ]} O.

Definition with_AllowList (c : ACLConfig) (list : gmap string string) : ACLConfig :=
  mkACLConfig list (BlockList c) (FilterOptions c) (DefaultFilterOption c)
    (TailingCompressed c) (ArchivedFormat c).

Definition with_BlockList (c : ACLConfig) (list : gmap string string) : ACLConfig :=
  mkACLConfig (AllowList c) list (FilterOptions c) (DefaultFilterOption c)
    (TailingCompressed c) (ArchivedFormat c).

(** The pointer [cfg] is never dangling. *)
Definition allocated (m : t) : Prop := is_Some (heap m !! cfg m).

End ACLManager.

(** *** package file: GlobSearcher *)

Module GlobSearcher.

Record searchResult := mkResult {
  matches : list string;
  err : error
}.

Record taskInfo := mkTask {
  Path : string;
  ExcludePath : list string;
  SuffixFilter : list string
}.

(** [inProcess] and [result] are [sync.Map]s keyed by the pattern.  [queue]
    is the unbuffered channel: the tasks whose senders wait for the worker
    to receive, oldest first. *)
Record t := mk {
  inProcess : gmap string taskInfo;
  result : gmap string searchResult;
  queue : list taskInfo
}.

Definition NewGlobSearcher : t := mk ∅ ∅ [].

(** [Search], as run by one caller. *)
Definition Search (s : t) (path : string) (ExcludePath SuffixFilter : list string)
    : (list string * error) * t :=
  let s1 :=
    match inProcess s !! path with
    | None =>
        mk (<[path := mkTask EmptyString ExcludePath SuffixFilter]> (inProcess s))
           (result s)
           (queue s ++ [mkTask path ExcludePath SuffixFilter])
    | Some _ => s
    end in
  match result s1 !! path with
  | None => (([], None), s1)
  | Some mr => ((matches mr, err mr), s1)
  end.

(** The inner loop of [dropExcludedPath]: the value of [keep] for the
    candidate [m]. *)
Fixpoint keep `{Path_lib} (m : string) (excludePath : list string) : bool :=
  match excludePath with
  | [] => true
  | ep :: rest =>
      let '(matched, err) := path_Match ep m in
      if is_nil err && matched then false else keep m rest
  end.

Fixpoint afterExcludeMatches `{Path_lib} (matches excludePath : list string)
    : list string :=
  match matches with
  | [] => []
  | m :: rest =>
      if keep m excludePath
      then m :: afterExcludeMatches rest excludePath
      else afterExcludeMatches rest excludePath
  end.

Definition dropExcludedPath `{Path_lib} (matches excludePath : list string)
    : list string * error :=
  (afterExcludeMatches matches excludePath, None).

(** The inner loop of [filterSuffix]: whether [p] is appended. *)
Fixpoint hasAnySuffix (p : string) (suffixFilter : list string) : bool :=
  match suffixFilter with
  | [] => false
  | suffix :: rest => if HasSuffix p suffix then true else hasAnySuffix p rest
  end.

Fixpoint filteredPaths (matches suffixFilter : list string) : list string :=
  match matches with
  | [] => []
  | p :: rest =>
      if hasAnySuffix p suffixFilter
      then p :: filteredPaths rest suffixFilter
      else filteredPaths rest suffixFilter
  end.

Definition filterSuffix (matches suffixFilter : list string) : list string :=
  if len suffixFilter =? 0 then matches
  else filteredPaths matches suffixFilter.

Definition Minute : Z := 60 * 1000000000.

Fixpoint dropNoUpdatePath (fs : filesystem) (matched : list string) (period : Z)
    : list string :=
  match matched with
  | [] => []
  | p :: rest =>
      match ModTime fs p with
      | None => dropNoUpdatePath fs rest period
      | Some modTime =>
          if modTime + period >? Now fs
          then p :: dropNoUpdatePath fs rest period
          else dropNoUpdatePath fs rest period
      end
  end.

(** The four assignments to [mr] in [searchTask]. *)
Definition pipeline `{Doublestar_lib} `{Path_lib} (fs : filesystem)
    (taskInfo : taskInfo) : searchResult :=
  let '(ms, e) := doublestar_Glob (Path taskInfo) in
  let mr := mkResult ms e in
  let '(ms, e) := dropExcludedPath (matches mr) (ExcludePath taskInfo) in
  let mr := mkResult ms e in
  let mr := mkResult (filterSuffix (matches mr) (SuffixFilter taskInfo)) (err mr) in
  let mr := mkResult (dropNoUpdatePath fs (matches mr) (Minute * 30)) (err mr) in
  mr.

(** **** The searcher with its worker goroutine

    [worker] is the task [searchTask] has received and not yet finished;
    [scans] logs the patterns passed to [doublestar.Glob], oldest first. *)
Record system := mkSystem {
  searcher : t;
  worker : option taskInfo;
  scans : list string
}.

Definition init : system := mkSystem NewGlobSearcher None [].

Inductive event :=
| CallSearch (path : string) (ExcludePath SuffixFilter : list string)
| Receive
| Finish (fs : filesystem).

(** One step; [None] when the event cannot happen in this state. *)
Definition step `{Doublestar_lib} `{Path_lib} (ev : event) (sys : system)
    : option system :=
  match ev with
  | CallSearch path ex sf =>
      Some (mkSystem (snd (Search (searcher sys) path ex sf)) (worker sys) (scans sys))
  | Receive =>
      match worker sys, queue (searcher sys) with
      | None, taskInfo :: rest =>
          Some (mkSystem
                  (mk (inProcess (searcher sys)) (result (searcher sys)) rest)
                  (Some taskInfo) (scans sys))
      | _, _ => None
      end
  | Finish fs =>
      match worker sys with
      | Some taskInfo =>
          let mr := pipeline fs taskInfo in
          let s := searcher sys in
          Some (mkSystem
                  (mk (delete (Path taskInfo) (inProcess s))
                      (<[Path taskInfo := mr]> (result s))
                      (queue s))
                  None (scans sys ++ [Path taskInfo]))
      | None => None
      end
  end.

Fixpoint exec `{Doublestar_lib} `{Path_lib} (evs : list event) (sys : system)
    : option system :=
  match evs with
  | [] => Some sys
  | ev :: rest =>
      match step ev sys with
      | Some sys' => exec rest sys'
      | None => None
      end
  end.

Inductive reachable `{Doublestar_lib} `{Path_lib} : system -> Prop :=
| reach_init : reachable init
| reach_step ev sys sys' :
    reachable sys -> step ev sys = Some sys' -> reachable sys'.

(** The computations for [p] that are in flight: queued or running. *)
Definition inFlight (sys : system) (p : string) : nat :=
  length (filter (fun t => Path t = p) (queue (searcher sys)))
  + match worker sys with
    | Some t => if decide (Path t = p) then 1 else 0
    | None => 0
    end.

(** What the result cache holds for [path], as [Search] returns it. *)
Definition cached (s : t) (path : string) : list string * error :=
  match result s !! path with
  | None => ([], None)
  | Some mr => (matches mr, err mr)
  end.

(** **** Concurrent callers of [Search]

    [Load] and [Store] on a [sync.Map] are each atomic, but [Search] runs
    the test of its [if] and the body in two steps.  [unmarked] holds, per
    goroutine, the task of a call whose [Load] found no marker and whose
    [Store] and send are still to come.  The [result.Load] that ends
    [Search] reads only and is left out. *)
Record racing := mkRacing {
  sys : system;
  unmarked : gmap nat taskInfo
}.

Inductive action :=
| Load (g : nat) (path : string) (ExcludePath SuffixFilter : list string)
| StoreSend (g : nat)
| Worker (ev : event).

Definition act `{Doublestar_lib} `{Path_lib} (a : action) (r : racing)
    : option racing :=
  match a with
  | Load g path ex sf =>
      match inProcess (searcher (sys r)) !! path with
      | None => Some (mkRacing (sys r) (<[g := mkTask path ex sf]> (unmarked r)))
      | Some _ => Some r
      end
  | StoreSend g =>
      match unmarked r !! g with
      | Some task =>
          let s := searcher (sys r) in
          Some (mkRacing
                  (mkSystem
                     (mk (<[Path task := mkTask EmptyString (ExcludePath task)
                                           (SuffixFilter task)]> (inProcess s))
                         (result s)
                         (queue s ++ [task]))
                     (worker (sys r)) (scans (sys r)))
                  (delete g (unmarked r)))
      | None => Some r
      end
  | Worker ev =>
      match ev with
      | CallSearch _ _ _ => None
      | _ =>
          match step ev (sys r) with
          | Some sys' => Some (mkRacing sys' (unmarked r))
          | None => None
          end
      end
  end.

Fixpoint acts `{Doublestar_lib} `{Path_lib} (l : list action) (r : racing)
    : option racing :=
  match l with
  | [] => Some r
  | a :: rest =>
      match act a r with
      | Some r' => acts rest r'
      | None => None
      end
  end.

(** **** Vocabulary of the filtering properties *)

(** The candidate [m] matches the exclusion glob [ep]: [path.Match] says so
    without an error. *)
Definition glob_matches `{Path_lib} (ep m : string) : Prop :=
  path_Match ep m = (true, None).

Definition excluded `{Path_lib} (m : string) (excludePath : list string) : Prop :=
  exists ep, In ep excludePath /\ glob_matches ep m.

(** The path [p] ends with [suffix]. *)
Definition ends_with (p suffix : string) : Prop :=
  exists front, p = String.append front suffix.

Definition has_configured_suffix (p : string) (suffixFilter : list string) : Prop :=
  exists suffix, In suffix suffixFilter /\ ends_with p suffix.

(** The file at [p] can be stat'd and was modified less than [period]
    before now. *)
Definition recent (fs : filesystem) (period : Z) (p : string) : Prop :=
  exists modTime, ModTime fs p = Some modTime /\ Now fs < modTime + period.

(** Calls of [Search] for one pattern, each with its own exclusions and
    suffixes. *)
Definition calls (path : string) (params : list (list string * list string))
    : list event :=
  map (fun '(ex, sf) => CallSearch path ex sf) params.

(** Nothing is queued or running. *)
Definition idle (sys : system) : Prop :=
  worker sys = None /\ queue (searcher sys) = [].

(** The in-flight marker of a pattern is set exactly while one computation
    for it is queued or running. *)
Definition marker_counts (sys : system) : Prop :=
  forall p, inFlight sys p
            = match inProcess (searcher sys) !! p with
              | Some _ => 1%nat
              | None => 0%nat
              end.

End GlobSearcher.

(** *** package webhook: the discovery adapter *)

(** [filepath.Join(a, b)] *)
Class Filepath_lib := {
  filepath_Join : string -> string -> string
}.

Module Webhook.

(** [model.MetaLabelPrefix] *)
Definition MetaLabelPrefix : string := "__meta_".

Definition subsystemLabel : string := String.append MetaLabelPrefix "subsystem".
Definition subsystemIdLabel : string := String.append MetaLabelPrefix "subsystemId".
Definition logDirLabel : string := String.append MetaLabelPrefix "logDir".
Definition HostLabel : string := String.append MetaLabelPrefix "host".

Record SubsystemInfo := mkSubsystemInfo {
  SubsystemId : string;
  SubsystemName : string;
  LogDir : string;
  Labels : gmap string string
}.

Record WebhookSDResponse := mkResponse {
  IDC : string;
  DCN : string;
  DefaultLogDir : string;
  SubsystemInfos : list SubsystemInfo
}.

Record Discovery := mkDiscovery {
  Address : string;
  LocalIP : string
}.

(** A [targetgroup.Group], as far as [parseTargets] fills it. *)
Record Group := mkGroup {
  Targets : list (gmap string string);
  Source : string
}.

Definition labelPrefix : string := "__label_".

(** The body of [for k, v := range si.Labels], over the entries in the
    order in which the run time yields them. *)
Fixpoint range_Labels (entries : list (string * string))
    (ls : gmap string string) : gmap string string :=
  match entries with
  | [] => ls
  | (k, v) :: rest =>
      range_Labels rest (<[String.append labelPrefix k := v]> ls)
  end.

(** The label set built for one subsystem, when [si.Labels] is ranged over
    in the order [order]. *)
Definition target_in `{Filepath_lib} (order : list (string * string))
    (d : Discovery) (resp : WebhookSDResponse) (si : SubsystemInfo)
    : gmap string string :=
  let ls : gmap string string := ∅ in
  let ls := <[subsystemLabel := SubsystemName si]> ls in
  let ls := <[subsystemIdLabel := SubsystemId si]> ls in
  let ls :=
    if negb (String.eqb (LogDir si) EmptyString)
    then <[logDirLabel := LogDir si]> ls
    else
      let dir :=
        String.append (filepath_Join (DefaultLogDir resp) (SubsystemName si))
          "/**" in
      let dir :=
        if String.eqb (DefaultLogDir resp) EmptyString
        then String.append (filepath_Join "/data/logs/" (SubsystemName si)) "/**"
        else dir in
      <[logDirLabel := dir]> ls in
  let ls := <[HostLabel := LocalIP d]> ls in
  range_Labels order ls.

(** [parseTargets], ranging over each [si.Labels] in the order of
    [map_to_list]. *)
Definition parseTargets `{Filepath_lib} (d : Discovery)
    (resp : WebhookSDResponse) : Group :=
  mkGroup
    (map (fun si => target_in (map_to_list (Labels si)) d resp si)
       (SubsystemInfos resp))
    (String.append (Address d) (String ":" (LocalIP d))).

(** The value [parseTargets] gives to the log directory label. *)
Definition logDir_of `{Filepath_lib} (resp : WebhookSDResponse)
    (si : SubsystemInfo) : string :=
  if String.eqb (LogDir si) EmptyString then
    if String.eqb (DefaultLogDir resp) EmptyString
    then String.append (filepath_Join "/data/logs/" (SubsystemName si)) "/**"
    else String.append (filepath_Join (DefaultLogDir resp) (SubsystemName si))
           "/**"
  else LogDir si.

End Webhook.

(** *** Library instances used in the examples *)

Module Samples.

(** Whether [p] occurs in [s]. *)
Fixpoint contains (p s : string) : bool :=
  String.prefix p s
  || match s with
     | EmptyString => false
     | String _ s' => contains p s'
     end.

(** Patterns read as literal text, which matches where it occurs; an
    opening parenthesis alone does not compile. *)
#[export] Instance regexp : Regexp_lib := {|
  regexp_MatchString pattern s :=
    if String.eqb pattern "(" then (false, Some "error parsing regexp"%string)
    else (contains pattern s, None)
|}.

(** Patterns without metacharacters, which match themselves only; an
    opening bracket alone is malformed. *)
#[export] Instance path : Path_lib := {|
  path_Match pattern name :=
    if String.eqb pattern "[" then (false, Some "syntax error in pattern"%string)
    else (String.eqb pattern name, None)
|}.

(** A disk that holds [a/x.log], [a/skip.log] and [a/y.txt]. *)
#[export] Instance doublestar : Doublestar_lib := {|
  doublestar_Glob pattern :=
    if String.eqb pattern "[" then ([], Some "syntax error in pattern"%string)
    else if String.eqb pattern "a/*" then (["a/x.log"; "a/skip.log"; "a/y.txt"]%string, None)
    else ([], None)
|}.

(** Every file was modified at instant 0, and it is one minute later. *)
Definition fs : filesystem := mkFilesystem (fun _ => Some 0) GlobSearcher.Minute.

(** The worker has received the task for the malformed pattern ([) that
    one call of [Search] enqueued. *)
Definition scanning_bad_pattern : GlobSearcher.system :=
  GlobSearcher.mkSystem
    (GlobSearcher.mk {[ "[" := GlobSearcher.mkTask EmptyString [] [] ]} ∅ [])
    (Some (GlobSearcher.mkTask "[" [] [])) [].

(** A decoder that knows two documents. *)
#[export] Instance json : ACLManager.Json_lib := {|
  ACLManager.json_Unmarshal b :=
    if String.eqb b "{}" then (ACLManager.zeroACLConfig, None)
    else if String.eqb b "{allow_list:{app:web}}"
    then (ACLManager.mkACLConfig {[ "app"%string := "web"%string ]} ∅ []
            ACLManager.zeroFilterCase false [], None)
    else (ACLManager.zeroACLConfig, Some "invalid character"%string)
|}.

(** A policy that allows the label [app] when it contains [web] and blocks
    the label [env] when it contains [test]; its filter cases are tried in
    order, and the regex of the first one does not compile. *)
Definition first_case : ACLManager.FilterCase :=
  ACLManager.mkFilterCase "app" "web" ["a/skip.log"] [".log"].

Definition second_case : ACLManager.FilterCase :=
  ACLManager.mkFilterCase "app" "we" [] [".txt"].

Definition policy : ACLManager.ACLConfig :=
  ACLManager.mkACLConfig {[ "app" := "web" ]} {[ "env" := "test" ]}
    [ACLManager.mkFilterCase "app" "(" [] []; first_case; second_case]
    ACLManager.zeroFilterCase false [].

Definition labels : gmap string string :=
  {[ "app" := "web-1"; "env" := "test" ]}.

(** A picker built with start index 0 whose list was then set to three
    endpoints. *)
Definition picker : AccessPicker.t :=
  AccessPicker.setEndpoints
    (AccessPicker.NewAccessPicker [] EmptyString EmptyString 0)
    ["a"; "b"; "c"]%string.

(** A directory service whose first base URL is down, and whose second
    answers with a list of two servers in different idcs. *)
#[export] Instance http : Http_lib := {|
  http_Get n url :=
    match n with
    | O => (None, Some "connection refused"%string)
    | _ => (Some (mkResponse ("outer"%string, None)), None)
    end
|}.

#[export] Instance json_client : Json_client_lib := {|
  json_AccessServerResponse b :=
    if String.eqb b "outer" then (Some "inner"%string, None)
    else if String.eqb b "null" then (None, None)
    else (Some EmptyString, Some "invalid character"%string);
  json_ServerList b :=
    if String.eqb b "inner"
    then (Some "10.0.0.1:80#1|SZ;10.0.0.2:80#1|GZ"%string, None)
    else if String.eqb b "null" then (None, None)
    else (Some EmptyString, Some "invalid character"%string)
|}.

(** A directory service that answers every request with the document
    null. *)
Definition http_null : Http_lib := {|
  http_Get n url := (Some (mkResponse ("null"%string, None)), None)
|}.

(** Label sets for the policy: one that the allow-list takes and the
    block-list does not, and one that neither takes. *)
Definition labels_web : gmap string string := {[ "app" := "web-1" ]}.
Definition labels_db : gmap string string := {[ "app" := "db" ]}.

(** A directory service that is down altogether. *)
Definition http_down : Http_lib := {|
  http_Get n url := (None, Some "connection refused"%string)
|}.

(** A picker for two base URLs and the idc [SZ], serving one endpoint. *)
Definition picker_SZ : AccessPicker.t :=
  AccessPicker.setEndpoints
    (AccessPicker.NewAccessPicker_split "http://cc1;http://cc2" "/servers.json"
       "SZ" 42)
    ["10.0.0.9:80"%string].

Definition servers : list (string * string * string * string) :=
  [("10.0.0.1", "80", "1", "SZ"); ("10.0.0.2", "80", "1", "GZ")]%string.

(** Paths joined with one slash. *)
#[export] Instance filepath : Filepath_lib := {|
  filepath_Join a b := String.append a (String "/" b)
|}.

(** A subsystem without a log directory of its own, with one label. *)
Definition subsystem : Webhook.SubsystemInfo :=
  Webhook.mkSubsystemInfo "1001" "pay" EmptyString
    {[ "team"%string := "core"%string ]}.

(** The system after one call for [a/*] and the worker's scan. *)
Definition scanned : GlobSearcher.system :=
  default GlobSearcher.init
    (GlobSearcher.exec
       [GlobSearcher.CallSearch "a/*" [] []; GlobSearcher.Receive;
        GlobSearcher.Finish fs] GlobSearcher.init).

(** Three files: one modified ten minutes ago, one forty minutes ago, one
    that cannot be stat'd. *)
Definition fs_ages : filesystem :=
  mkFilesystem
    (fun p =>
       if String.eqb p "a/x.log" then Some (50 * GlobSearcher.Minute)
       else if String.eqb p "a/old.log" then Some (20 * GlobSearcher.Minute)
       else None)
    (60 * GlobSearcher.Minute).

End Samples.

(** ** Part II: the properties *)

(** *** Go primitives *)

Lemma int32_id z : - 2 ^ 31 <= z < 2 ^ 31 -> int32 z = z.
Proof.
  intros Hz. unfold int32.
  rewrite Z.mod_small by lia. lia.
Qed.

Lemma int32_overflow : int32 (MaxInt32 + 1) = - 2 ^ 31.
Proof. reflexivity. Qed.

Lemma len_nonneg {A} (l : list A) : 0 <= len l.
Proof. unfold len. lia. Qed.

Lemma len_zero_nil {A} (l : list A) : len l = 0 <-> l = [].
Proof.
  unfold len. destruct l; simpl; split; intros; try done; lia.
Qed.

(** *** AccessPicker *)

Module AccessPickerFacts.
Import AccessPicker.

Lemma index_in_range (l : list string) (i : Z) :
  0 <= i < len l -> index l i = Some (endpointAt l i).
Proof.
  intros [H0 H1]. unfold index, endpointAt, len in *.
  destruct (Z.ltb_spec i 0); [lia|].
  assert (Hlt : (Z.to_nat i < length l)%nat) by lia.
  destruct (lookup_lt_is_Some_2 l _ Hlt) as [x Hx].
  rewrite Hx. f_equal. symmetry. by apply nth_lookup_Some with (d := EmptyString) in Hx.
Qed.

(** A call from a cursor the picker can hold, on a non-empty list: the
    cursor advances by one modulo the length and that element is returned. *)
Lemma Pick_advance ap :
  0 <= idx ap < MaxInt32 ->
  0 < len (accessEndpointList ap) <= MaxInt32 ->
  let next := (idx ap + 1) mod len (accessEndpointList ap) in
  Pick ap = Some (endpointAt (accessEndpointList ap) next, with_idx ap next).
Proof.
  intros Hc Hk next. unfold Pick, idx_Add.
  unfold MaxInt32 in *.
  destruct (Z.eqb_spec (len (accessEndpointList ap)) 0); [lia|].
  rewrite (int32_id (len _)) by lia.
  destruct (Z.eqb_spec (len (accessEndpointList ap)) 0); [lia|].
  rewrite (int32_id (idx ap + 1)) by lia.
  rewrite Z.rem_mod_nonneg by lia. fold next. simpl.
  assert (Hn : 0 <= next < len (accessEndpointList ap))
    by (apply Z.mod_pos_bound; lia).
  rewrite (index_in_range _ _ Hn). reflexivity.
Qed.

Lemma Pick_empty ap :
  accessEndpointList ap = [] -> Pick ap = Some (EmptyString, ap).
Proof. intros H. unfold Pick. rewrite H. reflexivity. Qed.

Lemma reachable_cursor_ok ap : reachable ap -> cursor_ok ap.
Proof.
  induction 1 as [e u i r Hr | ap ep ap' Hreach IH HP | ap l Hreach IH Hl].
  - unfold cursor_ok, NewAccessPicker, MaxInt32, len. simpl.
    rewrite Z.rem_mod_nonneg by lia.
    pose proof (Z.mod_pos_bound r 100). lia.
  - destruct IH as [Hc Hk].
    destruct (accessEndpointList ap) as [|e l] eqn:El.
    + rewrite Pick_empty in HP by done. inversion HP; subst.
      unfold cursor_ok. by rewrite El.
    + assert (Hpos : 0 < len (accessEndpointList ap) <= MaxInt32).
      { rewrite El in *. unfold len in *. simpl in *. lia. }
      rewrite Pick_advance in HP by done. inversion HP; subst.
      unfold cursor_ok. simpl.
      pose proof (Z.mod_pos_bound (idx ap + 1) (len (accessEndpointList ap))).
      rewrite El in *. unfold MaxInt32 in *. lia.
  - destruct IH as [Hc Hk]. unfold cursor_ok, setEndpoints. simpl. done.
Qed.

(** **** Sequential round robin *)

Lemma cycle_cons c k n :
  0 < k -> cycle c k (S n) = (c + 1) mod k :: cycle ((c + 1) mod k) k n.
Proof.
  intros Hk. unfold cycle. rewrite <- cons_seq. simpl. f_equal.
  rewrite <- seq_shift, map_map. apply map_ext. intros i.
  rewrite Zplus_mod_idemp_l. f_equal. lia.
Qed.

Lemma cycle_snoc c k n :
  cycle c k (S n) = cycle c k n ++ [(c + Z.of_nat (S n)) mod k].
Proof. unfold cycle. rewrite seq_S, map_app. reflexivity. Qed.

Lemma div_step k x :
  0 < k -> (x + 1) / k = x / k + (if decide ((x + 1) mod k = 0) then 1 else 0).
Proof.
  intros Hk.
  pose proof (Z.div_mod x k ltac:(lia)) as Hx.
  pose proof (Z.mod_pos_bound x k Hk) as Hr.
  pose proof (Z.div_mod (x + 1) k ltac:(lia)) as Hx'.
  pose proof (Z.mod_pos_bound (x + 1) k Hk) as Hr'.
  destruct (decide ((x + 1) mod k = 0)) as [E|E]; nia.
Qed.

Lemma mod_shift k c j :
  0 < k -> 0 <= j < k -> c mod k = j <-> (c - j) mod k = 0.
Proof.
  intros Hk Hj. split; intros H.
  - rewrite Zminus_mod, H, (Z.mod_small j k) by lia.
    rewrite Z.sub_diag. apply Zmod_0_l.
  - pose proof (Z.div_mod (c - j) k ltac:(lia)) as Hx. rewrite H in Hx.
    symmetry. apply (Z.mod_unique_pos c k ((c - j) / k) j); lia.
Qed.

Lemma div_window k a n :
  0 < k -> 0 <= n ->
  n / k <= (a + n) / k - a / k <= (n + k - 1) / k
  /\ (n mod k = 0 -> (a + n) / k - a / k = n / k).
Proof.
  intros Hk Hn.
  pose proof (Z.div_mod a k ltac:(lia)).
  pose proof (Z.mod_pos_bound a k Hk).
  pose proof (Z.div_mod n k ltac:(lia)).
  pose proof (Z.mod_pos_bound n k Hk).
  pose proof (Z.div_mod (a + n) k ltac:(lia)).
  pose proof (Z.mod_pos_bound (a + n) k Hk).
  pose proof (Z.div_mod (n + k - 1) k ltac:(lia)).
  pose proof (Z.mod_pos_bound (n + k - 1) k Hk).
  repeat split; nia.
Qed.

(** The number of visits of position [j] in [n] picks, in closed form. *)
Lemma times_cycle c k j n :
  0 < k -> 0 <= j < k ->
  times j (cycle c k n) = (c - j + Z.of_nat n) / k - (c - j) / k.
Proof.
  intros Hk Hj. unfold times. induction n as [|n IH].
  - simpl. rewrite Z.add_0_r. lia.
  - rewrite cycle_snoc, count_occ_app, Nat2Z.inj_add, IH. simpl count_occ.
    replace (c - j + Z.of_nat (S n)) with (c - j + Z.of_nat n + 1) by lia.
    rewrite (div_step k (c - j + Z.of_nat n)) by lia.
    destruct (Z.eq_dec ((c + Z.of_nat (S n)) mod k) j) as [E|E];
      apply mod_shift in E || (rewrite mod_shift in E by lia);
      try lia;
      replace (c + Z.of_nat (S n) - j) with (c - j + Z.of_nat n + 1) in E by lia;
      destruct (decide ((c - j + Z.of_nat n + 1) mod k = 0)); simpl; lia.
Qed.

(** Over [n] picks every position is visited the floor or the ceiling of
    [n / k] times, and exactly once in a full cycle of [k] picks. *)
Lemma cycle_fair c k j n :
  0 < k -> 0 <= j < k ->
  Z.of_nat n / k <= times j (cycle c k n) <= (Z.of_nat n + k - 1) / k
  /\ (Z.of_nat n = k -> times j (cycle c k n) = 1).
Proof.
  intros Hk Hj. rewrite times_cycle by done.
  destruct (div_window k (c - j) (Z.of_nat n) Hk ltac:(lia)) as [Hb He].
  split; [exact Hb|]. intros E. rewrite He.
  - rewrite E. apply Z_div_same_full. lia.
  - rewrite E. apply Z_mod_same_full.
Qed.

(** [n] calls in a row, from a cursor the picker can hold: the endpoints
    returned are those at the positions of the cycle, and the picker is
    again in such a state. *)
Lemma Picks_cycle n : forall ap,
  0 <= idx ap < MaxInt32 ->
  0 < len (accessEndpointList ap) <= MaxInt32 ->
  exists ap',
    Picks n ap
    = Some (map (endpointAt (accessEndpointList ap))
              (cycle (idx ap) (len (accessEndpointList ap)) n), ap')
    /\ accessEndpointList ap' = accessEndpointList ap
    /\ 0 <= idx ap' < MaxInt32.
Proof.
  induction n as [|n IH]; intros ap Hc Hk.
  - exists ap. simpl. done.
  - simpl Picks. rewrite Pick_advance by done.
    set (next := (idx ap + 1) mod len (accessEndpointList ap)).
    assert (Hn : 0 <= next < len (accessEndpointList ap))
      by (apply Z.mod_pos_bound; lia).
    destruct (IH (with_idx ap next)) as (ap' & HP & Hl & Hc').
    + simpl. lia.
    + done.
    + change (accessEndpointList (with_idx ap next))
        with (accessEndpointList ap) in HP, Hl.
      change (idx (with_idx ap next)) with next in HP.
      exists ap'. rewrite HP, cycle_cons by lia. done.
Qed.

(** For sequential callers the round robin is fair: from every state the
    picker reaches with a non-empty list, [n] calls return the endpoints at
    positions each of which is visited the floor or the ceiling of [n / k]
    times, and exactly once when [n = k]. *)
Theorem Picks_sequential_fair ap (n : nat) (j : Z) :
  0 <= idx ap < MaxInt32 ->
  0 < len (accessEndpointList ap) <= MaxInt32 ->
  0 <= j < len (accessEndpointList ap) ->
  let k := len (accessEndpointList ap) in
  exists ap',
    Picks n ap = Some (map (endpointAt (accessEndpointList ap)) (cycle (idx ap) k n), ap')
    /\ Z.of_nat n / k <= times j (cycle (idx ap) k n) <= (Z.of_nat n + k - 1) / k
    /\ (Z.of_nat n = k -> times j (cycle (idx ap) k n) = 1).
Proof.
  intros Hc Hk Hj k.
  destruct (Picks_cycle n ap Hc Hk) as (ap' & HP & _ & _).
  exists ap'. split; [exact HP|]. apply cycle_fair; lia.
Qed.

Lemma Picks_sequential_fair_witness :
  exists ap',
    Picks 7 Samples.picker
    = Some (map (endpointAt ["a"; "b"; "c"]%string) (cycle 0 3 7), ap')
    /\ 7 / 3 <= times 1 (cycle 0 3 7) <= (7 + 3 - 1) / 3
    /\ (7 = 3 -> times 1 (cycle 0 3 7) = 1).
Proof.
  apply (Picks_sequential_fair Samples.picker 7 1); vm_compute; split; congruence.
Defined.

(** **** Concurrent callers *)

(** A goroutine that runs its two steps with no other step in between does
    what [Pick] does. *)
Lemma run_alone g m :
  callers m !! g = None ->
  accessEndpointList (shared m) <> [] ->
  (fun '(eps, m') => (eps, shared m')) <$> run [g; g] m
  = (fun '(ep, ap') => ([ep], ap')) <$> Pick (shared m).
Proof.
  intros Hpc Hne. unfold run, step at 1, Pick. rewrite Hpc.
  destruct (Z.eqb_spec (len (accessEndpointList (shared m))) 0) as [E|E].
  { apply len_zero_nil in E. done. }
  destruct (int32 (len (accessEndpointList (shared m))) =? 0); [done|].
  unfold idx_Add, step. simpl. rewrite lookup_insert_eq. simpl.
  destruct (index _ _); done.
Qed.

Lemma endpointAt_elem (l : list string) (i : Z) :
  0 <= i < len l -> endpointAt l i ∈ l.
Proof.
  intros Hi. pose proof (index_in_range l i Hi) as Hx. unfold index in Hx.
  destruct (Z.ltb_spec i 0); [lia|].
  by eapply list_elem_of_lookup_2.
Qed.

(** One step of a goroutine of [gs] on a non-empty list: no panic, the
    list is left alone, and a returned endpoint is an element of it. *)
Lemma step_safe (gs : gset nat) B g m :
  0 < len (accessEndpointList (shared m)) <= MaxInt32 ->
  len (accessEndpointList (shared m)) - 1 <= B ->
  B + Z.of_nat (size gs) < MaxInt32 ->
  in_step B m -> dom (callers m) ⊆ gs -> g ∈ gs ->
  exists out m',
    step g m = Some (out, m')
    /\ accessEndpointList (shared m') = accessEndpointList (shared m)
    /\ in_step B m' /\ dom (callers m') ⊆ gs
    /\ forall ep, out = Some ep -> ep ∈ accessEndpointList (shared m).
Proof.
  intros Hk HB Hcap [Hidx Hnext] Hdom Hg. unfold step.
  destruct (callers m !! g) as [next|] eqn:Eg.
  - specialize (Hnext g next Eg) as Hn. simpl.
    rewrite (index_in_range _ _ Hn).
    eexists _, _. split; [reflexivity|]. unfold in_step. simpl.
    split; [done|]. split; [|split].
    + split; [lia|]. intros g' next' Hg'.
      apply lookup_delete_Some in Hg' as [_ Hg']. eauto.
    + rewrite dom_delete_L. by apply subseteq_difference_l.
    + intros ep [= <-]. by apply endpointAt_elem.
  - assert (Hsize : (size (callers m) < size gs)%nat).
    { rewrite <- size_dom. apply subset_size.
      apply not_elem_of_dom in Eg. split; [done|].
      intros Hsub. apply Eg, Hsub, Hg. }
    unfold MaxInt32 in *.
    destruct (Z.eqb_spec (len (accessEndpointList (shared m))) 0); [lia|].
    rewrite (int32_id (len _)) by lia.
    destruct (Z.eqb_spec (len (accessEndpointList (shared m))) 0); [lia|].
    unfold idx_Add. rewrite (int32_id (idx (shared m) + 1)) by lia.
    rewrite Z.rem_mod_nonneg by lia.
    eexists _, _. split; [reflexivity|]. unfold in_step. simpl.
    split; [done|]. split; [|split].
    + split.
      * rewrite map_size_insert_None by done. lia.
      * intros g' next' Hg'.
        apply lookup_insert_Some in Hg' as [[_ <-] | [_ Hg']]; [|eauto].
        apply Z.mod_pos_bound. lia.
    + rewrite dom_insert_L. apply union_least; [|done].
      by apply singleton_subseteq_l.
    + intros ep [=].
Qed.

(** Any schedule of the goroutines of [gs]: no call panics, and each returns
    an element of the list. *)
Lemma run_safe (gs : gset nat) B sched : forall m,
  0 < len (accessEndpointList (shared m)) <= MaxInt32 ->
  len (accessEndpointList (shared m)) - 1 <= B ->
  B + Z.of_nat (size gs) < MaxInt32 ->
  in_step B m -> dom (callers m) ⊆ gs -> Forall (fun g => g ∈ gs) sched ->
  exists eps m',
    run sched m = Some (eps, m')
    /\ Forall (fun ep => ep ∈ accessEndpointList (shared m)) eps.
Proof.
  induction sched as [|g sched IH]; intros m Hk HB Hcap Hinv Hdom Hs.
  - exists [], m. split; [done | constructor].
  - inversion Hs as [|? ? Hg Hs']; subst.
    destruct (step_safe gs B g m Hk HB Hcap Hinv Hdom Hg)
      as (out & m1 & Hstep & Hl & Hinv1 & Hdom1 & Hout).
    destruct (IH m1) as (eps & m' & Hrun & Heps); try done;
      try (rewrite Hl; done).
    simpl. rewrite Hstep, Hrun. rewrite Hl in Heps.
    eexists _, m'. split; [reflexivity|].
    destruct out as [ep|]; [|done]. constructor; eauto.
Qed.

Lemma run_empty sched : forall m,
  accessEndpointList (shared m) = [] -> callers m = ∅ ->
  exists eps, run sched m = Some (eps, m) /\ Forall (fun ep => ep = EmptyString) eps.
Proof.
  induction sched as [|g sched IH]; intros m Hl Hc.
  - exists []. split; [done | constructor].
  - destruct (IH m Hl Hc) as (eps & Hrun & Heps).
    simpl. unfold step. rewrite Hc, lookup_empty, Hl. simpl. rewrite Hrun.
    eexists. split; [reflexivity|]. by constructor.
Qed.

(** C7.  In every state the picker reaches: on an empty registry [Pick]
    returns the empty string and leaves the picker as it is; on a
    non-empty one it returns the element at a position within the bounds
    of the list.  The same holds for concurrent callers on a stable list:
    whatever the schedule of the goroutines of [gs], no step panics and
    every call returns the empty string (empty list) or an element of the
    list.  [Pick] is a total function: it does not block. *)
Theorem Pick_registry_safe ap :
  reachable ap ->
  (accessEndpointList ap = [] -> Pick ap = Some (EmptyString, ap))
  /\ (accessEndpointList ap <> [] ->
      exists (i : nat) (ep : string),
        (i < length (accessEndpointList ap))%nat
        /\ accessEndpointList ap !! i = Some ep
        /\ Pick ap = Some (ep, with_idx ap (Z.of_nat i)))
  /\ (forall (gs : gset nat) (sched : list nat),
        Z.max (idx ap) (len (accessEndpointList ap) - 1) + Z.of_nat (size gs)
        < MaxInt32 ->
        Forall (fun g => g ∈ gs) sched ->
        exists eps m',
          run sched (start ap) = Some (eps, m')
          /\ Forall (picked_from (accessEndpointList ap)) eps).
Proof.
  intros Hreach. destruct (reachable_cursor_ok _ Hreach) as [Hc Hk].
  split; [apply Pick_empty|]. split.
  - intros Hne.
    assert (Hpos : 0 < len (accessEndpointList ap) <= MaxInt32).
    { split; [|done]. pose proof (len_nonneg (accessEndpointList ap)).
      destruct (Z.eq_dec (len (accessEndpointList ap)) 0) as [E|E]; [|lia].
      apply len_zero_nil in E. done. }
    pose proof (Pick_advance ap Hc Hpos) as HP. simpl in HP.
    set (next := (idx ap + 1) mod len (accessEndpointList ap)) in *.
    assert (Hn : 0 <= next < len (accessEndpointList ap))
      by (apply Z.mod_pos_bound; lia).
    exists (Z.to_nat next), (endpointAt (accessEndpointList ap) next).
    split; [unfold len in Hn; lia|]. split.
    + pose proof (index_in_range (accessEndpointList ap) next Hn) as Hi.
      unfold index in Hi. by destruct (Z.ltb_spec next 0); [lia|].
    + rewrite Z2Nat.id by lia. exact HP.
  - intros gs sched Hcap Hs.
    destruct (accessEndpointList ap) as [|e l] eqn:El.
    + destruct (run_empty sched (start ap)) as (eps & Hrun & Heps); try done.
      by exists eps, (start ap).
    + assert (Hpos : 0 < len (accessEndpointList ap) <= MaxInt32).
      { rewrite El in *. unfold len in *. simpl in *. lia. }
      destruct (run_safe gs
                  (Z.max (idx ap) (len (accessEndpointList ap) - 1))
                  sched (start ap))
        as (eps & m' & Hrun & Heps); simpl; try done; try lia.
      * rewrite El. exact Hcap.
      * split; [|intros g next Hg; simpl in Hg; by rewrite lookup_empty in Hg].
        simpl. rewrite map_size_empty. lia.
      * exists eps, m'. split; [exact Hrun|].
        simpl in Heps. rewrite El in Heps. exact Heps.
Qed.

Lemma Pick_registry_safe_witness :
  reachable Samples.picker
  /\ (exists (i : nat) (ep : string),
        (i < 3)%nat /\ accessEndpointList Samples.picker !! i = Some ep
        /\ Pick Samples.picker = Some (ep, with_idx Samples.picker (Z.of_nat i)))
  /\ exists eps m',
       run [1; 2; 2; 1; 3; 3]%nat (start Samples.picker) = Some (eps, m')
       /\ Forall (picked_from ["a"; "b"; "c"]%string) eps.
Proof.
  assert (Hr : reachable Samples.picker).
  { apply reach_sync; [apply reach_new; lia | vm_compute; discriminate]. }
  split; [exact Hr|].
  destruct (Pick_registry_safe Samples.picker Hr) as (_ & Hseq & Hconc).
  split; [apply Hseq; discriminate|].
  apply (Hconc {[ 1%nat; 2%nat; 3%nat ]}).
  - vm_compute. reflexivity.
  - repeat constructor; by (apply bool_decide_unpack; vm_compute).
Defined.

(** C1.  The round robin is not fair for concurrent callers.  Three
    goroutines pick from a list of three endpoints; goroutines 1 and 2
    both run [idx.Add(1)] before either runs [idx.Store(next)], and
    goroutine 2 stores first.  The three picks return the third endpoint
    twice and the first one never. *)
Theorem Pick_interleaved_not_fair :
  reachable Samples.picker /\
  fst <$> run [1; 2; 2; 1; 3; 3]%nat (start Samples.picker)
  = Some ["c"; "b"; "c"]%string.
Proof.
  split.
  - apply reach_sync; [apply reach_new; lia | vm_compute; discriminate].
  - vm_compute. reflexivity.
Qed.

(** The same three picks one after the other visit every endpoint once. *)
Remark Pick_in_turn_fair :
  fst <$> run [1; 1; 2; 2; 3; 3]%nat (start Samples.picker)
  = Some ["b"; "c"; "a"]%string.
Proof. vm_compute. reflexivity. Qed.

(** Cursors the picker never holds can make the remainder negative and the
    index panic: so do the cursor -5 and the largest [int32] on a list of
    three. *)
Remark Pick_negative_cursor :
  Pick (with_idx Samples.picker (-5)) = None
  /\ Pick (with_idx Samples.picker MaxInt32) = None.
Proof. split; vm_compute; reflexivity. Qed.

End AccessPickerFacts.

(** *** The submatch list of a compiled pattern *)

Module RegexpFacts.
Import Regexp.

Lemma backtrack_length r : forall s caps k res L,
  (forall s' caps' res',
     length caps' = L -> k s' caps' = Some res' -> length res' = L) ->
  length caps = L ->
  backtrack r s caps k = Some res ->
  length res = L.
Proof.
  induction r as [c | | r1 IH1 r2 IH2 | greedy r IH | i r IH];
    intros s caps k res L Hk Hc Hres; simpl in Hres.
  - destruct s as [|c' s']; [done|].
    destruct (Ascii.eqb c c'); [eauto | done].
  - destruct s as [|c' s']; [done|].
    destruct (Ascii.eqb c' newline); [done | eauto].
  - eapply IH1; [| exact Hc | exact Hres].
    intros s0 caps0 res0 Hc0 Hr0.
    eapply IH2; [exact Hk | exact Hc0 | exact Hr0].
  - revert Hres Hc. generalize (length s) at 1. intros fuel.
    revert s caps res.
    induction fuel as [|fuel IHf]; intros s caps res Hres Hc.
    + eauto.
    + simpl in Hres.
      destruct greedy.
      * match type of Hres with
        | match ?a with _ => _ end = _ => destruct a as [r0|] eqn:Ea
        end.
        -- injection Hres as <-. eapply IH; [| exact Hc | exact Ea].
           intros s0 caps0 res1 Hc0 Hr0. simpl in Hr0.
           destruct (length s0 <? length s)%nat; [|done].
           eapply IHf; [exact Hr0 | exact Hc0].
        -- eauto.
      * destruct (k s caps) as [r0|] eqn:Ek.
        -- injection Hres as <-. eauto.
        -- eapply IH; [| exact Hc | exact Hres].
           intros s0 caps0 res1 Hc0 Hr0. simpl in Hr0.
           destruct (length s0 <? length s)%nat; [|done].
           eapply IHf; [exact Hr0 | exact Hc0].
  - eapply IH; [| exact Hc | exact Hres].
    intros s0 caps0 res0 Hc0 Hr0. eapply Hk; [|exact Hr0].
    by rewrite length_insert.
Qed.

Lemma find_length r n s caps :
  find r n s = Some caps -> length caps = S n.
Proof.
  assert (Hhere : forall s0 res,
            match_here r n s0 = Some res -> length res = S n).
  { intros s0 res E. unfold match_here in E.
    eapply backtrack_length; [| | exact E].
    - intros s' caps' res' Hc [= <-]. by rewrite length_insert.
    - by rewrite length_replicate. }
  induction s as [|c s IH]; simpl.
  - destruct (match_here r n []) as [res|] eqn:E; [|done].
    intros [= <-]. eauto.
  - destruct (match_here r n (c :: s)) as [res|] eqn:E; [|exact IH].
    intros [= <-]. eauto.
Qed.

(** [FindStringSubmatch] returns [nil] or one entry for the whole match and
    one per group. *)
Lemma FindStringSubmatch_length r n s :
  FindStringSubmatch r n s = []
  \/ length (FindStringSubmatch r n s) = S n.
Proof.
  unfold FindStringSubmatch.
  destruct (find r n _) as [caps|] eqn:E; [right | by left].
  by eapply find_length.
Qed.

End RegexpFacts.

Module ParseFacts.
Import AccessPicker.

Lemma submatches_shape s :
  pattern_FindStringSubmatch s = []
  \/ exists whole ip port weight idc,
       pattern_FindStringSubmatch s = [whole; ip; port; weight; idc].
Proof.
  unfold pattern_FindStringSubmatch.
  destruct (RegexpFacts.FindStringSubmatch_length serverInfoPattern 4 s)
    as [E|E]; [by left | right].
  destruct (Regexp.FindStringSubmatch serverInfoPattern 4 s)
    as [|a [|b [|c [|d [|e [|f l]]]]]]; try done.
  by exists a, b, c, d, e.
Qed.

(** C10, as amended.  The two versions of [parseAccessServerInfo] return the
    same triple on every input: all empty when the record does not match
    the pattern, and the ip, port and idc groups when it does. *)
Theorem parseAccessServerInfo_versions_agree s :
  parseAccessServerInfo s = parseAccessServerInfo_range s
  /\ (pattern_FindStringSubmatch s = []
      /\ parseAccessServerInfo s = (EmptyString, EmptyString, EmptyString)
      \/ exists whole ip port weight idc,
           pattern_FindStringSubmatch s = [whole; ip; port; weight; idc]
           /\ parseAccessServerInfo s = (ip, port, idc)).
Proof.
  unfold parseAccessServerInfo, parseAccessServerInfo_range.
  destruct (submatches_shape s) as [E | (w & ip & port & wt & idc & E)];
    rewrite E; simpl.
  - split; [done|]. by left.
  - split; [done|]. right. by exists w, ip, port, wt, idc.
Qed.

(** C10, as stated, fails: a record can match the pattern with an empty ip,
    port and idc, so an all-empty triple does not tell that the record did
    not match. *)
Lemma parseAccessServerInfo_empty_on_match :
  ~ (forall s,
       parseAccessServerInfo s = (EmptyString, EmptyString, EmptyString)
       <-> pattern_FindStringSubmatch s = []).
Proof.
  intros H. specialize (H ":#|"%string).
  destruct H as [H _].
  assert (E : pattern_FindStringSubmatch ":#|" <> []) by (vm_compute; discriminate).
  apply E, H. vm_compute. reflexivity.
Qed.

(** A refresh keeps the well-formed records of the configured idc and drops
    the others. *)
Remark endpointsOf_filters :
  endpointsOf "SZ"
    ["10.0.0.1:8080#5|SZ"; "bad"; "10.0.0.2:8080#5|GZ"; ":1#2|SZ"]%string
  = ["10.0.0.1:8080"%string].
Proof. vm_compute. reflexivity. Qed.

End ParseFacts.

(** *** ACLManager *)

Module ACLManagerFacts.
Import ACLManager.

Section Policy.
Context `{Regexp_lib}.

Lemma range_AllowList_existsb labels entries allow :
  range_AllowList labels entries allow
  = allow || existsb (entry_matches labels) entries.
Proof.
  revert allow. induction entries as [|[l v] rest IH]; intros allow; simpl.
  - by rewrite orb_false_r.
  - rewrite IH. unfold entry_matches. simpl.
    destruct (matches v (label labels l)), allow; simpl; try done.
Qed.

Lemma range_BlockList_existsb labels entries allow :
  range_BlockList labels entries allow
  = allow && negb (existsb (entry_matches labels) entries).
Proof.
  revert allow. induction entries as [|[l v] rest IH]; intros allow; simpl.
  - by rewrite andb_true_r.
  - rewrite IH. unfold entry_matches. simpl.
    destruct (matches v (label labels l)), allow; simpl; try done.
Qed.

Lemma existsb_entries labels (list : gmap string string) order :
  order ≡ₚ map_to_list list ->
  existsb (entry_matches labels) order = true <-> matches_some labels list.
Proof.
  intros Hp. rewrite existsb_exists. unfold matches_some, entry_matches.
  split.
  - intros ([l v] & Hin & Hm). exists l, v. split; [|exact Hm].
    apply elem_of_map_to_list. rewrite <- Hp. by apply list_elem_of_In.
  - intros (l & v & Hl & Hm). exists (l, v). split; [|exact Hm].
    apply list_elem_of_In. rewrite Hp. by apply elem_of_map_to_list.
Qed.

Lemma size_zero_empty (list : gmap string string) :
  (Z.of_nat (size list) =? 0) = true <-> list = ∅.
Proof.
  rewrite Z.eqb_eq. split.
  - intros E. apply map_size_empty_iff. lia.
  - intros ->. by rewrite map_size_empty.
Qed.

(** [IsAllow], whatever the orders in which the two maps are ranged over. *)
Lemma IsAllow_in_iff m labels allowOrder blockOrder :
  allowOrder ≡ₚ map_to_list (AllowList (deref m)) ->
  blockOrder ≡ₚ map_to_list (BlockList (deref m)) ->
  IsAllow_in allowOrder blockOrder m labels = true
  <-> (AllowList (deref m) = ∅ \/ matches_some labels (AllowList (deref m)))
      /\ ~ matches_some labels (BlockList (deref m)).
Proof.
  intros Ha Hb. unfold IsAllow_in.
  rewrite range_BlockList_existsb, andb_true_iff, negb_true_iff.
  rewrite <- (existsb_entries labels _ _ Hb), <- (existsb_entries labels _ _ Ha).
  rewrite <- not_true_iff_false.
  apply and_iff_compat_r.
  destruct (Z.of_nat (size (AllowList (deref m))) =? 0) eqn:E; simpl.
  - apply size_zero_empty in E. tauto.
  - rewrite range_AllowList_existsb. simpl.
    assert (AllowList (deref m) <> ∅).
    { intros E'. apply size_zero_empty in E'. congruence. }
    tauto.
Qed.

Lemma IsAllow_iff m labels :
  IsAllow m labels = true
  <-> (AllowList (deref m) = ∅ \/ matches_some labels (AllowList (deref m)))
      /\ ~ matches_some labels (BlockList (deref m)).
Proof. by apply IsAllow_in_iff. Qed.

Lemma bool_eq_iff (a b : bool) : (a = true <-> b = true) -> a = b.
Proof. destruct a, b; intuition congruence. Qed.

Lemma matches_primitive v s :
  matches v s = true <-> regexp_MatchString v s = (true, None).
Proof.
  unfold matches, is_nil.
  destruct (regexp_MatchString v s) as [matched [e|]];
    destruct matched; simpl; split; intros Hm;
    try discriminate Hm; reflexivity.
Qed.

Lemma matches_some_primitive labels (list : gmap string string) :
  matches_some labels list
  <-> exists l v,
        list !! l = Some v
        /\ regexp_MatchString v
             (match labels !! l with Some x => x | None => EmptyString end)
           = (true, None).
Proof.
  unfold matches_some, label.
  split; intros (l & v & Hl & Hm); exists l, v; (split; [done|]);
    destruct (labels !! l); simpl in *; by apply matches_primitive.
Qed.

Lemma deref_lookup m c : heap m !! cfg m = Some c -> deref m = c.
Proof. intros Hc. unfold deref. by rewrite Hc. Qed.

(** C4.  For the policy document [c] that [m.cfg] points to and every label
    set: [IsAllow] is true by default; with a non-empty allow-list the
    label set has to match at least one of its entries; a label set that
    matches an entry of the block-list is denied whatever the allow-list
    says.  The label set matches an entry [(l, v)] when
    [regexp.MatchString(v, labels[l])] returns true and no error, the value
    of an absent label being the empty string.  The answer does not depend
    on the order in which Go ranges over the two maps. *)
Theorem IsAllow_semantics m c labels allowOrder blockOrder :
  heap m !! cfg m = Some c ->
  allowOrder ≡ₚ map_to_list (AllowList c) ->
  blockOrder ≡ₚ map_to_list (BlockList c) ->
  let allow := IsAllow_in allowOrder blockOrder m labels in
  let value (l : string) :=
    match labels !! l with Some x => x | None => EmptyString end in
  let hit (list : gmap string string) :=
    exists l v,
      list !! l = Some v /\ regexp_MatchString v (value l) = (true, None) in
  (allow = true
   <-> (AllowList c = ∅ \/ hit (AllowList c)) /\ ~ hit (BlockList c))
  /\ (AllowList c = ∅ -> ~ hit (BlockList c) -> allow = true)
  /\ (AllowList c <> ∅ -> ~ hit (AllowList c) -> allow = false)
  /\ (hit (BlockList c) -> allow = false)
  /\ allow = IsAllow m labels.
Proof.
  intros Hc Ha Hb allow value hit.
  pose proof (deref_lookup m c Hc) as Hd.
  rewrite <- Hd in Ha, Hb.
  pose proof (IsAllow_in_iff m labels _ _ Ha Hb) as Hiff. fold allow in Hiff.
  rewrite !matches_some_primitive, Hd in Hiff.
  split; [exact Hiff|]. split; [|split; [|split]].
  - intros Ea Hno. apply Hiff. split; [by left | exact Hno].
  - intros Hne Hno. apply not_true_iff_false. rewrite Hiff. tauto.
  - intros Hblk. apply not_true_iff_false. rewrite Hiff. tauto.
  - apply bool_eq_iff. rewrite Hiff, IsAllow_iff, !matches_some_primitive, Hd.
    tauto.
Qed.




(** An entry whose regex does not compile matches nothing. *)
Lemma invalid_never_matches v s : invalid_regex v -> matches v s = false.
Proof.
  intros Hv. unfold matches. specialize (Hv s).
  destruct (regexp_MatchString v s) as [matched [e|]]; simpl in *; done.
Qed.

Lemma matches_some_insert_invalid labels list l v :
  invalid_regex v ->
  matches_some labels (<[l := v]> list) <-> matches_some labels (delete l list).
Proof.
  intros Hv. unfold matches_some. split.
  - intros (l' & v' & Hl & Hm). exists l', v'. split; [|done].
    destruct (decide (l = l')) as [->|Hne].
    + rewrite lookup_insert_eq in Hl. injection Hl as <-.
      by rewrite invalid_never_matches in Hm.
    + rewrite lookup_insert_ne in Hl by done. by rewrite lookup_delete_ne.
  - intros (l' & v' & Hl & Hm). exists l', v'. split; [|done].
    destruct (decide (l = l')) as [->|Hne].
    + by rewrite lookup_delete_eq in Hl.
    + rewrite lookup_delete_ne in Hl by done. by rewrite lookup_insert_ne.
Qed.

Lemma deref_serving c : deref (serving c) = c.
Proof. unfold deref, serving. simpl. by rewrite lookup_singleton_eq. Qed.

(** C9.  An entry whose regex does not compile is skipped as one that does
    not match: an allow-list made of such entries only denies every label
    set; adding such an entry to the block-list changes no answer; adding
    it to the allow-list makes the list non-empty and leaves the answer to
    the other entries. *)
Theorem IsAllow_skips_invalid_regex m c labels l v :
  invalid_regex v ->
  (forall s, matches v s = false)
  /\ (AllowList (deref m) <> ∅ ->
      (forall l' v', AllowList (deref m) !! l' = Some v' -> invalid_regex v') ->
      IsAllow m labels = false)
  /\ IsAllow (serving (with_BlockList c (<[l := v]> (BlockList c)))) labels
     = IsAllow (serving (with_BlockList c (delete l (BlockList c)))) labels
  /\ (IsAllow (serving (with_AllowList c (<[l := v]> (AllowList c)))) labels = true
      <-> matches_some labels (delete l (AllowList c))
          /\ ~ matches_some labels (BlockList c)).
Proof.
  intros Hv. split; [intros s; by apply invalid_never_matches|].
  split; [|split].
  - intros Hne Hall. apply not_true_iff_false. rewrite IsAllow_iff.
    intros [[E | (l' & v' & Hl & Hm)] _]; [done|].
    rewrite invalid_never_matches in Hm by eauto. done.
  - apply bool_eq_iff. rewrite !IsAllow_iff, !deref_serving. simpl.
    by rewrite matches_some_insert_invalid.
  - rewrite IsAllow_iff, deref_serving. simpl.
    rewrite matches_some_insert_invalid by done.
    split; [|tauto].
    intros [[E | Hsome] Hblk]; [|done].
    exfalso. by apply (insert_non_empty (AllowList c) l v).
Qed.

End Policy.

(** **** Reload *)

Lemma new_addr_fresh m : allocated m -> new_addr (heap m) <> cfg m.
Proof.
  intros Ha E. unfold new_addr in E.
  apply (is_fresh (dom (heap m))). rewrite E. by apply elem_of_dom.
Qed.

(** [reflect.DeepEqual] of a struct and a pointer is false: the two values
    have distinct types. *)
Lemma DeepEqual_struct_pointer h c p :
  reflect_DeepEqual h (AnyACLConfig c) (AnyPtrACLConfig p) = false.
Proof. reflexivity. Qed.

(** C2.  [syncOnce] replaces the active policy pointer whenever the file is
    read and parsed, also when the parsed document equals the active
    policy: the comparison that should skip the swap is between an
    [ACLConfig] and a pointer to one, and is false always. *)
Theorem syncOnce_always_swaps `{Json_lib} m b c :
  allocated m ->
  json_Unmarshal b = (c, None) ->
  c = deref m ->
  cfg (syncOnce (b, None) m) <> cfg m
  /\ deref (syncOnce (b, None) m) = deref m.
Proof.
  intros Ha Hb Hc. unfold syncOnce. cbn [is_nil negb]. rewrite Hb.
  cbn [is_nil negb]. rewrite DeepEqual_struct_pointer. split.
  - by apply new_addr_fresh.
  - unfold deref at 1. simpl. by rewrite lookup_insert_eq.
Qed.

Lemma syncOnce_always_swaps_witness :
  let m := NewACLManager "acl.json" in
  cfg (syncOnce (H := Samples.json) ("{}"%string, None) m) <> cfg m
  /\ deref (syncOnce (H := Samples.json) ("{}"%string, None) m) = deref m.
Proof.
  apply (syncOnce_always_swaps (H := Samples.json)
           (NewACLManager "acl.json") "{}" zeroACLConfig).
  - by eexists.
  - reflexivity.
  - reflexivity.
Defined.

Lemma IsAllow_semantics_witness :
  IsAllow (H := Samples.regexp) (serving Samples.policy) Samples.labels = false
  /\ IsAllow (H := Samples.regexp) (serving Samples.policy) Samples.labels_web
     = true
  /\ IsAllow (H := Samples.regexp) (serving Samples.policy) Samples.labels_db
     = false
  /\ IsAllow (H := Samples.regexp)
       (serving (with_AllowList Samples.policy ∅)) Samples.labels_db = true.
Proof.
  assert (Hweb : forall labels : gmap string string,
            labels !! "env"%string = None ->
            ~ exists l v,
                ({[ "env"%string := "test"%string ]} : gmap string string) !! l
                = Some v
                /\ regexp_MatchString (Regexp_lib := Samples.regexp) v
                     (match labels !! l with
                      | Some x => x
                      | None => EmptyString
                      end) = (true, None)).
  { intros labels Henv (l & v & Hl & Hm).
    apply lookup_singleton_Some in Hl as [<- <-]. rewrite Henv in Hm.
    vm_compute in Hm. discriminate. }
  split; [|split; [|split]].
  - destruct (IsAllow_semantics (H := Samples.regexp)
                (serving Samples.policy) Samples.policy Samples.labels _ _
                eq_refl (Permutation_refl _) (Permutation_refl _))
      as (_ & _ & _ & Hblock & Heq).
    rewrite <- Heq. apply Hblock.
    exists "env"%string, "test"%string. split; vm_compute; reflexivity.
  - destruct (IsAllow_semantics (H := Samples.regexp)
                (serving Samples.policy) Samples.policy Samples.labels_web _ _
                eq_refl (Permutation_refl _) (Permutation_refl _))
      as (Hiff & _ & _ & _ & Heq).
    rewrite <- Heq. apply Hiff. split.
    + right. exists "app"%string, "web"%string.
      split; vm_compute; reflexivity.
    + change (BlockList Samples.policy)
        with ({[ "env"%string := "test"%string ]} : gmap string string).
      by apply Hweb.
  - destruct (IsAllow_semantics (H := Samples.regexp)
                (serving Samples.policy) Samples.policy Samples.labels_db _ _
                eq_refl (Permutation_refl _) (Permutation_refl _))
      as (_ & _ & Hdeny & _ & Heq).
    rewrite <- Heq. apply Hdeny.
    + apply (insert_non_empty (∅ : gmap string string)).
    + intros (l & v & Hl & Hm).
      change (AllowList Samples.policy)
        with ({[ "app"%string := "web"%string ]} : gmap string string) in Hl.
      apply lookup_singleton_Some in Hl as [<- <-].
      vm_compute in Hm. discriminate.
  - destruct (IsAllow_semantics (H := Samples.regexp)
                (serving (with_AllowList Samples.policy ∅))
                (with_AllowList Samples.policy ∅) Samples.labels_db _ _
                eq_refl (Permutation_refl _) (Permutation_refl _))
      as (_ & Hdefault & _ & _ & Heq).
    rewrite <- Heq. apply Hdefault; [done|].
    change (BlockList (with_AllowList Samples.policy ∅))
      with ({[ "env"%string := "test"%string ]} : gmap string string).
    by apply Hweb.
Defined.


Lemma IsAllow_skips_invalid_regex_witness :
  invalid_regex (H := Samples.regexp) "("
  /\ IsAllow (H := Samples.regexp)
       (serving (with_AllowList Samples.policy {[ "app"%string := "("%string ]}))
       Samples.labels = false.
Proof.
  assert (Hv : invalid_regex (H := Samples.regexp) "(")
    by (intros s; simpl; discriminate).
  split; [exact Hv|].
  destruct (IsAllow_skips_invalid_regex (H := Samples.regexp)
              (serving (with_AllowList Samples.policy
                          {[ "app"%string := "("%string ]}))
              Samples.policy Samples.labels "app" "(" Hv)
    as (_ & Hall & _).
  apply Hall.
  - rewrite deref_serving. simpl. apply insert_non_empty.
  - intros l' v'. rewrite deref_serving. simpl.
    intros Hl. apply lookup_singleton_Some in Hl as [_ <-]. exact Hv.
Defined.

End ACLManagerFacts.

(** *** Strings *)

Lemma substring_all s : substring 0 (String.length s) s = s.
Proof. induction s as [|c s IH]; simpl; [done | by rewrite IH]. Qed.

Lemma substring_skip front s :
  substring (String.length front) (String.length s) (String.append front s) = s.
Proof. induction front as [|c front IH]; simpl; [apply substring_all | exact IH]. Qed.

Lemma length_append s1 s2 :
  String.length (String.append s1 s2) = (String.length s1 + String.length s2)%nat.
Proof. induction s1 as [|c s1 IH]; simpl; [done | by rewrite IH]. Qed.

Lemma substring_split s : forall n,
  (n <= String.length s)%nat ->
  s = String.append (substring 0 n s) (substring n (String.length s - n) s).
Proof.
  induction s as [|c s IH]; intros [|n] Hn; simpl in *.
  - done.
  - lia.
  - by rewrite substring_all.
  - transitivity
      (String c (String.append (substring 0 n s)
                   (substring n (String.length s - n) s)));
      [f_equal; apply IH; lia | reflexivity].
Qed.

Lemma HasSuffix_ends_with p suffix :
  HasSuffix p suffix = true <-> GlobSearcher.ends_with p suffix.
Proof.
  unfold HasSuffix, GlobSearcher.ends_with. rewrite andb_true_iff, Nat.leb_le, String.eqb_eq.
  split.
  - intros [Hle Hsub].
    exists (substring 0 (String.length p - String.length suffix) p).
    rewrite (substring_split p (String.length p - String.length suffix)) at 1 by lia.
    f_equal. rewrite <- Hsub at 3. f_equal. lia.
  - intros [front ->]. rewrite length_append. split; [lia|].
    replace (String.length front + String.length suffix - String.length suffix)%nat
      with (String.length front) by lia.
    apply substring_skip.
Qed.

(** *** GlobSearcher *)

Module GlobSearcherFacts.
Import GlobSearcher.

Section Filtering.
Context `{Path_lib}.

Lemma keep_excluded m excludePath :
  keep m excludePath = false <-> excluded m excludePath.
Proof.
  unfold excluded, glob_matches.
  induction excludePath as [|ep rest IH]; simpl.
  - split; [done | by intros (ep & [] & _)].
  - destruct (path_Match ep m) as [matched e] eqn:E.
    destruct e as [e|], matched; simpl.
    + rewrite IH. split.
      * intros (ep' & Hin & Hm). exists ep'. auto.
      * intros (ep' & [<- | Hin] & Hm); [congruence | by exists ep'].
    + rewrite IH. split.
      * intros (ep' & Hin & Hm). exists ep'. auto.
      * intros (ep' & [<- | Hin] & Hm); [congruence | by exists ep'].
    + split; [|done]. intros _. exists ep. auto.
    + rewrite IH. split.
      * intros (ep' & Hin & Hm). exists ep'. auto.
      * intros (ep' & [<- | Hin] & Hm); [congruence | by exists ep'].
Qed.

Lemma afterExcludeMatches_filter matches excludePath :
  afterExcludeMatches matches excludePath
  = List.filter (fun m => keep m excludePath) matches.
Proof.
  induction matches as [|m rest IH]; simpl; [done|].
  rewrite IH. reflexivity.
Qed.

Lemma hasAnySuffix_iff p suffixFilter :
  hasAnySuffix p suffixFilter = true <-> has_configured_suffix p suffixFilter.
Proof.
  unfold has_configured_suffix.
  induction suffixFilter as [|suffix rest IH]; simpl.
  - split; [done | by intros (s & [] & _)].
  - destruct (HasSuffix p suffix) eqn:E.
    + split; [|done]. intros _. exists suffix.
      split; [by left | by apply HasSuffix_ends_with].
    + rewrite IH. split.
      * intros (s & Hin & Hs). exists s. auto.
      * intros (s & [<- | Hin] & Hs); [|by exists s].
        apply HasSuffix_ends_with in Hs. congruence.
Qed.

Lemma filteredPaths_filter matches suffixFilter :
  filteredPaths matches suffixFilter
  = List.filter (fun p => hasAnySuffix p suffixFilter) matches.
Proof.
  induction matches as [|p rest IH]; simpl; [done|].
  rewrite IH. reflexivity.
Qed.

(** C8.  The exclusion stage drops a candidate exactly when it matches one
    of the exclusion globs and reports no error; the suffix stage keeps
    everything when no suffix is configured and otherwise exactly the
    candidates that end with a configured suffix; both keep the order and
    the multiplicity of what they keep.  With a [path.Match] under which
    the literal pattern [a/skip.log] matches itself only, excluding it and
    then filtering on [.log] turns [a/x.log], [a/skip.log], [a/y.txt] into
    [a/x.log]. *)
Theorem exclusion_suffix_composition matches excludePath suffixFilter :
  (fst (dropExcludedPath matches excludePath)
   = List.filter (fun m => keep m excludePath) matches
   /\ snd (dropExcludedPath matches excludePath) = None
   /\ forall m, In m (fst (dropExcludedPath matches excludePath))
                <-> In m matches /\ ~ excluded m excludePath)
  /\ (suffixFilter = [] -> filterSuffix matches suffixFilter = matches)
  /\ (suffixFilter <> [] ->
      filterSuffix matches suffixFilter
      = List.filter (fun p => hasAnySuffix p suffixFilter) matches
      /\ forall p, In p (filterSuffix matches suffixFilter)
                   <-> In p matches /\ has_configured_suffix p suffixFilter)
  /\ ((forall name,
         path_Match "a/skip.log" name = (String.eqb "a/skip.log" name, None)) ->
      filterSuffix
        (fst (dropExcludedPath ["a/x.log"; "a/skip.log"; "a/y.txt"]%string
                ["a/skip.log"%string]))
        [".log"%string]
      = ["a/x.log"%string]).
Proof.
  split; [|split; [|split]].
  - unfold dropExcludedPath. simpl. rewrite afterExcludeMatches_filter.
    split; [done|]. split; [done|].
    intros m. rewrite filter_In. apply and_iff_compat_l.
    rewrite <- keep_excluded. by destruct (keep m excludePath).
  - intros ->. reflexivity.
  - intros Hne. unfold filterSuffix.
    destruct (Z.eqb_spec (len suffixFilter) 0) as [E|E].
    { apply len_zero_nil in E. done. }
    rewrite filteredPaths_filter. split; [done|].
    intros p. rewrite filter_In. apply and_iff_compat_l.
    apply hasAnySuffix_iff.
  - intros Hlit. unfold dropExcludedPath, filterSuffix. simpl.
    rewrite !Hlit. reflexivity.
Qed.

End Filtering.

Lemma exclusion_suffix_composition_witness :
  filterSuffix
    (fst (dropExcludedPath (H := Samples.path)
            ["a/x.log"; "a/skip.log"; "a/y.txt"]%string ["a/skip.log"%string]))
    [".log"%string]
  = ["a/x.log"%string].
Proof.
  destruct (exclusion_suffix_composition (H := Samples.path) [] [] [])
    as (_ & _ & _ & Hex).
  apply Hex. intros name. reflexivity.
Defined.

Section Worker.
Context `{Doublestar_lib} `{Path_lib}.

Lemma Search_coalesced s path ex sf :
  is_Some (inProcess s !! path) ->
  Search s path ex sf = (cached s path, s).
Proof.
  intros [t Ht]. unfold Search, cached. rewrite Ht.
  by destruct (result s !! path).
Qed.

Lemma Search_enqueues s path ex sf :
  inProcess s !! path = None ->
  Search s path ex sf
  = (cached s path,
     mk (<[path := mkTask EmptyString ex sf]> (inProcess s)) (result s)
        (queue s ++ [mkTask path ex sf])).
Proof.
  intros Hn. unfold Search, cached. rewrite Hn. simpl.
  by destruct (result s !! path).
Qed.

Lemma marker_counts_init : marker_counts init.
Proof. intros p. unfold inFlight. simpl. by rewrite lookup_empty. Qed.

Lemma marker_counts_step ev sys sys' :
  marker_counts sys -> step ev sys = Some sys' -> marker_counts sys'.
Proof.
  intros Hinv Hstep p. specialize (Hinv p). unfold inFlight in *.
  destruct ev as [path ex sf | | fs]; simpl in Hstep.
  - injection Hstep as <-. simpl.
    destruct (inProcess (searcher sys) !! path) as [t|] eqn:Ein.
    + rewrite Search_coalesced by eauto. exact Hinv.
    + rewrite Search_enqueues by done. simpl.
      rewrite filter_app, length_app.
      destruct (decide (path = p)) as [->|Hne].
      * rewrite lookup_insert_eq. rewrite Ein in Hinv.
        rewrite filter_cons_True by done. simpl. lia.
      * rewrite lookup_insert_ne by done.
        rewrite filter_cons_False by done. simpl. lia.
  - destruct (worker sys) as [t|] eqn:Ew; [done|].
    destruct (queue (searcher sys)) as [|t rest] eqn:Eq; [done|].
    injection Hstep as <-. simpl.
    destruct (decide (Path t = p)) as [E|E].
    + rewrite filter_cons_True in Hinv by done. simpl in Hinv. lia.
    + rewrite filter_cons_False in Hinv by done. simpl in Hinv. lia.
  - destruct (worker sys) as [t|] eqn:Ew; [|done].
    injection Hstep as <-. simpl.
    destruct (decide (Path t = p)) as [E|E].
    + rewrite E, lookup_delete_eq.
      destruct (inProcess (searcher sys) !! p); lia.
    + rewrite lookup_delete_ne by done. lia.
Qed.

Lemma reachable_marker_counts sys : reachable sys -> marker_counts sys.
Proof.
  induction 1 as [|ev sys sys' _ IH Hstep];
    [apply marker_counts_init | by eapply marker_counts_step].
Qed.

(** Calls for a pattern that is in flight leave the system as it is. *)
Lemma exec_calls_coalesced path params rest sys :
  is_Some (inProcess (searcher sys) !! path) ->
  exec (calls path params ++ rest) sys = exec rest sys.
Proof.
  intros Hin. induction params as [|[ex sf] params IH]; simpl; [done|].
  rewrite Search_coalesced by done. simpl.
  destruct sys. exact IH.
Qed.

(** Coalescing for callers that run [Search] one at a time.  In every state
    the searcher and its worker then reach: at most one computation per
    pattern is queued or running, and there is one exactly when the
    pattern is marked in-flight; a [Search] for a marked pattern enqueues
    nothing and returns what the cache holds; and any number of calls for
    one pattern, made before and after the worker receives the task and
    until it finishes, cause one scan. *)
Theorem Search_coalesces sys :
  reachable sys ->
  (forall p,
     (inFlight sys p <= 1)%nat
     /\ (inFlight sys p = 1%nat <-> is_Some (inProcess (searcher sys) !! p)))
  /\ (forall path ex sf,
        is_Some (inProcess (searcher sys) !! path) ->
        Search (searcher sys) path ex sf
        = (cached (searcher sys) path, searcher sys))
  /\ (forall path ex sf params1 params2 fs,
        idle sys ->
        exists sys',
          exec (CallSearch path ex sf :: calls path params1
                ++ Receive :: calls path params2 ++ [Finish fs]) sys
          = Some sys'
          /\ scans sys' = scans sys ++ [path]
          /\ inFlight sys' path = 0%nat
          /\ idle sys').
Proof.
  intros Hreach. pose proof (reachable_marker_counts sys Hreach) as Hinv.
  split; [|split].
  - intros p. specialize (Hinv p). rewrite Hinv.
    destruct (inProcess (searcher sys) !! p) as [t|].
    + split; [lia|]. split; eauto.
    + split; [lia|]. split; [done | by intros [? ?]].
  - intros path ex sf. apply Search_coalesced.
  - intros path ex sf params1 params2 fs [Hw Hq].
    assert (Hnone : inProcess (searcher sys) !! path = None).
    { specialize (Hinv path). unfold inFlight in Hinv.
      rewrite Hw, Hq in Hinv. simpl in Hinv.
      by destruct (inProcess (searcher sys) !! path). }
    cbn [exec step]. rewrite Search_enqueues by done. cbn [snd].
    rewrite exec_calls_coalesced
      by (cbn [searcher inProcess]; rewrite lookup_insert_eq; eauto).
    cbn [exec step worker searcher queue inProcess result scans].
    rewrite Hw, Hq. cbn [app].
    rewrite exec_calls_coalesced
      by (cbn [searcher inProcess]; rewrite lookup_insert_eq; eauto).
    cbn [exec step worker searcher queue inProcess result scans Path].
    eexists. split; [reflexivity|]. cbn. unfold inFlight, idle. cbn.
    repeat split; done.
Qed.

(** C3.  A glob syntax error is not recorded: the assignment from
    [dropExcludedPath] overwrites [mr.err] with [nil], so once the worker
    has finished the task the cache holds no error for the pattern and
    [Search] returns none. *)
Theorem searchTask_loses_glob_error fs sys taskInfo ms e :
  worker sys = Some taskInfo ->
  doublestar_Glob (Path taskInfo) = (ms, Some e) ->
  exists sys',
    step (Finish fs) sys = Some sys'
    /\ result (searcher sys') !! Path taskInfo = Some (pipeline fs taskInfo)
    /\ err (pipeline fs taskInfo) = None
    /\ forall ex sf,
         snd (fst (Search (searcher sys') (Path taskInfo) ex sf)) = None.
Proof.
  intros Hw Hglob. simpl. rewrite Hw. eexists. split; [reflexivity|].
  cbn [searcher result inProcess].
  assert (Herr : err (pipeline fs taskInfo) = None).
  { unfold pipeline. rewrite Hglob. reflexivity. }
  split; [by rewrite lookup_insert_eq|]. split; [exact Herr|].
  intros ex sf. unfold Search. cbn [inProcess result].
  rewrite lookup_delete_eq. cbn [result]. rewrite lookup_insert_eq.
  exact Herr.
Qed.

End Worker.

Lemma Search_coalesces_witness :
  exists sys',
    exec (H := Samples.doublestar) (H0 := Samples.path)
      (CallSearch "a/*" [] [".log"%string]
       :: calls "a/*" [([], []); ([], [])]
       ++ Receive :: calls "a/*" [(["a/skip.log"%string], [])]
       ++ [Finish Samples.fs]) init
    = Some sys'
    /\ scans sys' = scans init ++ ["a/*"%string]
    /\ inFlight sys' "a/*" = 0%nat
    /\ idle sys'.
Proof.
  destruct (Search_coalesces (H := Samples.doublestar) (H0 := Samples.path)
              init reach_init) as (_ & _ & Hone).
  apply Hone. split; reflexivity.
Defined.

(** A caller that runs the test and the body of the [if] with no other step
    in between does what [Search] does. *)
Lemma acts_alone `{Doublestar_lib} `{Path_lib} g path ex sf r :
  unmarked r !! g = None ->
  sys <$> acts [Load g path ex sf; StoreSend g] r
  = step (CallSearch path ex sf) (sys r).
Proof.
  intros Hg. simpl.
  destruct (inProcess (searcher (sys r)) !! path) as [t|] eqn:E.
  - rewrite Hg, Search_coalesced by eauto. simpl. by destruct (sys r).
  - simpl. rewrite lookup_insert_eq, Search_enqueues by done. reflexivity.
Qed.

(** C6.  Coalescing fails for concurrent callers.  Two goroutines call
    [Search] for one pattern and both run [inProcess.Load] before either
    runs [inProcess.Store]: both find no marker, both enqueue a task, two
    computations for the pattern are in flight, and the worker scans the
    pattern twice. *)
Theorem Search_race_scans_twice :
  exists r r',
    acts (H := Samples.doublestar) (H0 := Samples.path)
      [Load 1 "a/*" [] []; Load 2 "a/*" [] []; StoreSend 1; StoreSend 2]
      (mkRacing init ∅) = Some r
    /\ inFlight (sys r) "a/*" = 2%nat
    /\ acts (H := Samples.doublestar) (H0 := Samples.path)
         [Worker Receive; Worker (Finish Samples.fs);
          Worker Receive; Worker (Finish Samples.fs)] r = Some r'
    /\ scans (sys r') = ["a/*"; "a/*"]%string.
Proof.
  eexists _, _. split; [vm_compute; reflexivity|].
  split; [vm_compute; reflexivity|].
  split; vm_compute; reflexivity.
Qed.

Remark scanning_bad_pattern_reached :
  exec (H := Samples.doublestar) (H0 := Samples.path)
    [CallSearch "[" [] []; Receive] init
  = Some Samples.scanning_bad_pattern.
Proof. vm_compute. reflexivity. Qed.

Lemma searchTask_loses_glob_error_witness :
  exists sys',
    step (H := Samples.doublestar) (H0 := Samples.path)
      (Finish Samples.fs) Samples.scanning_bad_pattern = Some sys'
    /\ result (searcher sys') !! "["%string
       = Some (pipeline (H := Samples.doublestar) (H0 := Samples.path)
                 Samples.fs (mkTask "[" [] []))
    /\ err (pipeline (H := Samples.doublestar) (H0 := Samples.path)
              Samples.fs (mkTask "[" [] [])) = None
    /\ forall ex sf,
         snd (fst (Search (searcher sys') "[" ex sf)) = None.
Proof.
  apply (searchTask_loses_glob_error (H := Samples.doublestar)
           (H0 := Samples.path) Samples.fs Samples.scanning_bad_pattern
           (mkTask "[" [] []) [] "syntax error in pattern");
    reflexivity.
Defined.

End GlobSearcherFacts.

(** *** Matching a server record *)

Module RecordFacts.
Import Regexp AccessPicker.

Lemma backtrack_star greedy r s caps k :
  backtrack (Star greedy r) s caps k
  = star_loop (backtrack r) greedy k (length s) s caps.
Proof. reflexivity. Qed.

Lemma consumed_app a rest :
  consumed (a ++ rest) rest = string_of_list_ascii a.
Proof.
  unfold consumed. rewrite length_app.
  replace (length a + length rest - length rest)%nat with (length a) by lia.
  by rewrite take_app_length.
Qed.

(** A lazy star of [.] gives way to its continuation at the first position
    where the continuation succeeds. *)
Lemma lazy_dot k res rest caps : forall a fuel,
  (length a <= fuel)%nat ->
  Forall (fun x => x <> newline) a ->
  (forall pre x post, a = pre ++ x :: post -> k (x :: post ++ rest) caps = None) ->
  k rest caps = Some res ->
  star_loop (backtrack Dot) false k fuel (a ++ rest) caps = Some res.
Proof.
  induction a as [|x a IH]; intros fuel Hfuel Hnl Hfail Hk.
  - destruct fuel; simpl; [done | by rewrite Hk].
  - destruct fuel as [|fuel]; [simpl in Hfuel; lia|].
    inversion Hnl as [|? ? Hx Hnl']; subst.
    cbn [star_loop app]. rewrite (Hfail [] x a eq_refl).
    cbn [backtrack]. apply Ascii.eqb_neq in Hx. rewrite Hx.
    assert (Hlt : (length (a ++ rest) <? length (x :: a ++ rest))%nat = true)
      by (apply Nat.ltb_lt; simpl; lia).
    rewrite Hlt. apply IH; try done.
    + simpl in Hfuel. lia.
    + intros pre y post ->. apply (Hfail (x :: pre) y post). done.
Qed.

(** A greedy star of [.] runs to the end of a line that ends the input. *)
Lemma greedy_dot k res caps : forall d fuel,
  (length d <= fuel)%nat ->
  Forall (fun x => x <> newline) d ->
  k [] caps = Some res ->
  star_loop (backtrack Dot) true k fuel d caps = Some res.
Proof.
  induction d as [|x d IH]; intros fuel Hfuel Hnl Hk.
  - destruct fuel; simpl; done.
  - destruct fuel as [|fuel]; [simpl in Hfuel; lia|].
    inversion Hnl as [|? ? Hx Hnl']; subst.
    cbn [star_loop backtrack]. apply Ascii.eqb_neq in Hx. rewrite Hx.
    assert (Hlt : (length d <? length (x :: d))%nat = true)
      by (apply Nat.ltb_lt; simpl; lia).
    rewrite Hlt, IH; try done. simpl in Hfuel. lia.
Qed.

(** A lazy group closed by the literal [c]: it takes the text up to the
    first [c]. *)
Lemma lazy_group_lit i c r a rest caps k res :
  Forall (fun x => x <> c /\ x <> newline) a ->
  backtrack r rest (<[i := string_of_list_ascii a]> caps) k = Some res ->
  backtrack (Cat (Group i (Star false Dot)) (Cat (Lit c) r))
    (a ++ c :: rest) caps k = Some res.
Proof.
  intros Ha Hr.
  change (backtrack (Cat (Group i (Star false Dot)) (Cat (Lit c) r))
            (a ++ c :: rest) caps k)
    with (star_loop (backtrack Dot) false
            (fun s' caps' =>
               backtrack (Cat (Lit c) r) s'
                 (<[i := consumed (a ++ c :: rest) s']> caps') k)
            (length (a ++ c :: rest)) (a ++ c :: rest) caps).
  apply lazy_dot.
  - rewrite length_app. lia.
  - eapply Forall_impl; [exact Ha|]. by intros x [_ ?].
  - intros pre x post ->. cbn [backtrack].
    apply Forall_app in Ha as [_ Ha]. inversion Ha as [|? ? [Hx _] _]; subst.
    assert (E : Ascii.eqb c x = false) by (apply Ascii.eqb_neq; congruence).
    by rewrite E.
  - cbn [backtrack]. rewrite Ascii.eqb_refl, consumed_app. exact Hr.
Qed.

(** A greedy group at the end of the pattern takes the rest of the line. *)
Lemma greedy_group_end i d caps k res :
  Forall (fun x => x <> newline) d ->
  k [] (<[i := string_of_list_ascii d]> caps) = Some res ->
  backtrack (Group i (Star true Dot)) d caps k = Some res.
Proof.
  intros Hd Hk.
  change (backtrack (Group i (Star true Dot)) d caps k)
    with (star_loop (backtrack Dot) true
            (fun s' caps' => k s' (<[i := consumed d s']> caps'))
            (length d) d caps).
  apply greedy_dot; [done | done |].
  replace d with (d ++ []) at 1 by apply app_nil_r.
  by rewrite consumed_app.
Qed.

Lemma list_ascii_of_string_append s1 s2 :
  list_ascii_of_string (String.append s1 s2)
  = list_ascii_of_string s1 ++ list_ascii_of_string s2.
Proof. induction s1 as [|c s1 IH]; simpl; [done | by rewrite IH]. Qed.

Lemma plain_no_newline c s :
  plain c s -> Forall (fun x => x <> newline) (list_ascii_of_string s).
Proof. intros H. eapply Forall_impl; [exact H|]. by intros x [_ ?]. Qed.

Lemma find_here r n s caps :
  match_here r n s = Some caps -> find r n s = Some caps.
Proof. intros Hhere. destruct s; cbn [find]; by rewrite Hhere. Qed.

Lemma submatches_record ip port weight idc :
  plain ":" ip -> plain "#" port -> plain "|" weight -> plain newline idc ->
  pattern_FindStringSubmatch (record ip port weight idc)
  = [record ip port weight idc; ip; port; weight; idc].
Proof.
  intros Hip Hport Hweight Hidc.
  unfold pattern_FindStringSubmatch, FindStringSubmatch.
  set (s := list_ascii_of_string (record ip port weight idc)).
  assert (Es : s = list_ascii_of_string ip ++ ":"%char ::
                   list_ascii_of_string port ++ "#"%char ::
                   list_ascii_of_string weight ++ "|"%char ::
                   list_ascii_of_string idc).
  { unfold s, record.
    rewrite !list_ascii_of_string_append; simpl.
    rewrite !list_ascii_of_string_append; simpl.
    by rewrite !list_ascii_of_string_append. }
  assert (Hhere : match_here serverInfoPattern 4 s
                  = Some [record ip port weight idc; ip; port; weight; idc]).
  { unfold match_here, serverInfoPattern. rewrite Es at 1.
    apply lazy_group_lit; [exact Hip|].
    apply lazy_group_lit; [exact Hport|].
    apply lazy_group_lit; [exact Hweight|].
    apply greedy_group_end; [by eapply plain_no_newline|].
    replace s with (s ++ []) by apply app_nil_r.
    rewrite consumed_app. unfold s.
    rewrite !string_of_list_ascii_of_string. reflexivity. }
  by rewrite (find_here _ _ _ _ Hhere).
Qed.

Lemma parseAccessServerInfo_record ip port weight idc :
  plain ":" ip -> plain "#" port -> plain "|" weight -> plain newline idc ->
  parseAccessServerInfo (record ip port weight idc) = (ip, port, idc).
Proof.
  intros Hip Hport Hweight Hidc. unfold parseAccessServerInfo.
  by rewrite submatches_record.
Qed.

Lemma plain_of_chars c s :
  forallb (fun x => negb (Ascii.eqb x c) && negb (Ascii.eqb x newline))
    (list_ascii_of_string s) = true ->
  plain c s.
Proof.
  intros H. apply Forall_forall. intros x Hx.
  rewrite forallb_forall in H. apply list_elem_of_In in Hx.
  specialize (H x Hx).
  apply andb_true_iff in H as [H1 H2].
  apply negb_true_iff in H1, H2. by split; apply Ascii.eqb_neq.
Qed.

(** Parsing a record gives back its ip, port and idc, when the ip has no
    colon, the port no hash, the weight no bar, and none of the four a
    newline; both versions of [parseAccessServerInfo] do. *)
Theorem parse_record ip port weight idc :
  plain ":" ip -> plain "#" port -> plain "|" weight -> plain newline idc ->
  parseAccessServerInfo (record ip port weight idc) = (ip, port, idc)
  /\ parseAccessServerInfo_range (record ip port weight idc) = (ip, port, idc).
Proof.
  intros Hip Hport Hweight Hidc.
  unfold parseAccessServerInfo, parseAccessServerInfo_range.
  rewrite submatches_record by done. split; reflexivity.
Qed.

Lemma parse_record_witness :
  parseAccessServerInfo (record "10.0.0.1" "80" "1" "SZ")
  = ("10.0.0.1", "80", "SZ")%string
  /\ parseAccessServerInfo_range (record "10.0.0.1" "80" "1" "SZ")
     = ("10.0.0.1", "80", "SZ")%string.
Proof.
  apply (parse_record "10.0.0.1" "80" "1" "SZ"); by apply plain_of_chars.
Defined.

End RecordFacts.

(** *** Splitting and joining *)

Lemma Split_nonempty s sep : Split s sep <> [].
Proof.
  induction s as [|c s IH]; simpl; [done|].
  destruct (Ascii.eqb c sep); [done|]. by destruct (Split s sep).
Qed.

Lemma Join_cons e rest sep :
  rest <> [] -> Join (e :: rest) sep = String.append e (String sep (Join rest sep)).
Proof. by destruct rest. Qed.

Lemma Join_Split s sep : Join (Split s sep) sep = s.
Proof.
  induction s as [|c s IH]; simpl; [done|].
  destruct (Ascii.eqb_spec c sep) as [->|Hne].
  - rewrite Join_cons by apply Split_nonempty. simpl. by rewrite IH.
  - pose proof (Split_nonempty s sep) as Hn.
    destruct (Split s sep) as [|piece pieces]; [done|].
    destruct pieces as [|p2 pieces].
    + simpl in *. by rewrite IH.
    + rewrite Join_cons in IH by done. rewrite Join_cons by done.
      rewrite <- IH. reflexivity.
Qed.

Lemma Split_free s sep :
  AccessPicker.free sep s -> Split s sep = [s].
Proof.
  unfold AccessPicker.free. induction s as [|c s IH]; simpl; [done|].
  intros Hfree. destruct (Ascii.eqb_spec c sep) as [->|Hne]; [tauto|].
  rewrite IH by tauto. done.
Qed.

Lemma Split_append s1 s2 sep :
  AccessPicker.free sep s1 ->
  Split (String.append s1 (String sep s2)) sep = s1 :: Split s2 sep.
Proof.
  unfold AccessPicker.free. induction s1 as [|c s1 IH]; simpl.
  - by rewrite Ascii.eqb_refl.
  - intros Hfree. destruct (Ascii.eqb_spec c sep) as [->|Hne]; [tauto|].
    rewrite IH by tauto. done.
Qed.

(** Splitting what was joined gives the pieces back, when none of them
    holds the separator. *)
Lemma Split_Join elems sep :
  elems <> [] -> Forall (AccessPicker.free sep) elems ->
  Split (Join elems sep) sep = elems.
Proof.
  induction elems as [|e rest IH]; [done|]. intros _ Hfree.
  inversion Hfree as [|? ? He Hrest]; subst.
  destruct rest as [|e2 rest].
  - simpl. by apply Split_free.
  - rewrite Join_cons by done. rewrite Split_append by done.
    by rewrite IH.
Qed.

(** *** Refreshing the endpoint list *)

Module RefreshFacts.
Import AccessPicker.

Lemma endpointsOf_cons idc s rest :
  endpointsOf idc (s :: rest)
  = (let '(ip, port, idc') := parseAccessServerInfo s in
     if String.eqb ip EmptyString || String.eqb port EmptyString
        || String.eqb idc' EmptyString
     then []
     else if negb (String.eqb idc EmptyString) then
       if String.eqb idc' idc then [endpoint ip port] else []
     else [endpoint ip port])
    ++ endpointsOf idc rest.
Proof.
  cbn [endpointsOf]. destruct (parseAccessServerInfo s) as [[ip port] idc'].
  destruct (_ || _); [done|].
  destruct (negb _); [|done]. by destruct (String.eqb idc' idc).
Qed.

(** The endpoints of a refresh are those of the records that parse to a
    non-empty ip, port and idc and, when the picker has an idc, to that
    idc; every other record is dropped. *)
Theorem endpointsOf_kept idc serverInfoStrs e :
  In e (endpointsOf idc serverInfoStrs)
  <-> exists s, In s serverInfoStrs /\ kept idc s e.
Proof.
  induction serverInfoStrs as [|s rest IH].
  - simpl. split; [done | by intros (s & [] & _)].
  - rewrite endpointsOf_cons, in_app_iff, IH. clear IH.
    assert (Hhead :
      In e (let '(ip, port, idc') := parseAccessServerInfo s in
            if String.eqb ip EmptyString || String.eqb port EmptyString
               || String.eqb idc' EmptyString
            then []
            else if negb (String.eqb idc EmptyString) then
              if String.eqb idc' idc then [endpoint ip port] else []
            else [endpoint ip port])
      <-> kept idc s e).
    { unfold kept.
      destruct (parseAccessServerInfo s) as [[ip port] idc'].
      destruct (String.eqb_spec ip EmptyString) as [Eip|Eip];
        [split; [done | intros (?&?&?&[= <- <- <-]&?&?); tauto]|].
      destruct (String.eqb_spec port EmptyString) as [Ep|Ep];
        [split; [done | intros (?&?&?&[= <- <- <-]&?&?&?); tauto]|].
      destruct (String.eqb_spec idc' EmptyString) as [Ei|Ei];
        [split; [done | intros (?&?&?&[= <- <- <-]&?&?&?&?); tauto]|].
      simpl.
      destruct (String.eqb_spec idc EmptyString) as [Ec|Ec]; simpl.
      - split.
        + intros [<-|[]]. exists ip, port, idc'. tauto.
        + intros (?&?&?&[= <- <- <-]&_&_&_&_&->). by left.
      - destruct (String.eqb_spec idc' idc) as [Em|Em].
        + split.
          * intros [<-|[]]. exists ip, port, idc'. tauto.
          * intros (?&?&?&[= <- <- <-]&_&_&_&_&->). by left.
        + split; [done|].
          intros (?&?&?&[= <- <- <-]&_&_&_&[?|?]&_); done. }
    rewrite Hhead. split.
    + intros [Hk | (s' & Hin & Hk)]; [exists s | exists s']; simpl; tauto.
    + intros (s' & [<- | Hin] & Hk); [by left | right; by exists s'].
Qed.

Lemma endpointsOf_kept_witness :
  In "10.0.0.1:80"%string
    (endpointsOf "SZ" (Split "10.0.0.1:80#1|SZ;10.0.0.2:80#1|GZ;bad" ";")).
Proof.
  apply (endpointsOf_kept "SZ").
  exists "10.0.0.1:80#1|SZ"%string. split; [vm_compute; tauto|].
  exists "10.0.0.1"%string, "80"%string, "SZ"%string.
  split; [vm_compute; reflexivity|]. repeat split; try discriminate. by right.
Defined.

Lemma endpointsOf_records idc rs :
  Forall wellformed rs ->
  endpointsOf idc (map record_of rs)
  = map endpoint_of (List.filter (selected idc) rs).
Proof.
  induction 1 as [|[[[ip port] weight] idc'] rs Hwf _ IH]; [done|].
  destruct Hwf as (Hip & Hport & Hweight & Hidc & Nip & Nport & Nidc).
  cbn [map record_of]. rewrite endpointsOf_cons, IH.
  rewrite RecordFacts.parseAccessServerInfo_record by done.
  apply String.eqb_neq in Nip, Nport, Nidc. rewrite Nip, Nport, Nidc.
  cbn [orb List.filter selected].
  destruct (String.eqb idc EmptyString); cbn [negb orb];
    [done | by destruct (String.eqb idc' idc)].
Qed.

Lemma servers_wellformed : Forall wellformed Samples.servers.
Proof.
  repeat constructor; try discriminate; by apply RecordFacts.plain_of_chars.
Qed.

(** A server list of well-formed entries joined with semicolons refreshes
    to the endpoints of the entries that pass the locality filter, in the
    order of the list. *)
Theorem endpointsOf_server_list idc rs :
  rs <> [] -> Forall wellformed rs ->
  Forall (fun r => free ";" (record_of r)) rs ->
  endpointsOf idc (Split (Join (map record_of rs) ";") ";")
  = map endpoint_of (List.filter (selected idc) rs).
Proof.
  intros Hne Hwf Hfree. rewrite Split_Join.
  - by apply endpointsOf_records.
  - by destruct rs.
  - by apply Forall_map.
Qed.

Lemma endpointsOf_server_list_witness :
  endpointsOf "SZ" (Split (Join (map record_of Samples.servers) ";") ";")
  = map endpoint_of (List.filter (selected "SZ") Samples.servers).
Proof.
  apply (endpointsOf_server_list "SZ" Samples.servers).
  - discriminate.
  - apply servers_wellformed.
  - repeat constructor; unfold free; vm_compute; intuition discriminate.
Defined.

(** **** The base URLs *)

Lemma NewAccessPicker_split_nonempty ccEndpoint ccUri idc r :
  CCEndpoint (NewAccessPicker_split ccEndpoint ccUri idc r) <> [].
Proof. apply Split_nonempty. Qed.

Lemma nth_ccAddresses ap (i : nat) :
  (i < length (CCEndpoint ap))%nat ->
  nth i (ccAddresses ap) EmptyString
  = String.append (nth i (CCEndpoint ap) EmptyString)
      (String "/" (TrimLeft (CCUri ap) "/")).
Proof.
  intros Hi. unfold ccAddresses.
  rewrite (nth_indep _ EmptyString
             (String.append EmptyString (String "/" (TrimLeft (CCUri ap) "/"))))
    by (by rewrite length_map).
  apply (map_nth (fun base =>
           String.append base (String "/" (TrimLeft (CCUri ap) "/")))).
Qed.

Lemma getCCAddress_in_range ap (i : nat) :
  (i < length (CCEndpoint ap))%nat ->
  getCCAddress ap (Z.of_nat i) = Some (nth i (ccAddresses ap) EmptyString).
Proof.
  intros Hi. unfold getCCAddress.
  destruct (Z.geb_spec (Z.of_nat i) (len (CCEndpoint ap))) as [Hge|_];
    [unfold len in Hge; lia|].
  rewrite AccessPickerFacts.index_in_range by (unfold len; lia).
  rewrite nth_ccAddresses by done. unfold endpointAt.
  by rewrite Nat2Z.id.
Qed.

(** [getCCAddress] wraps the index around the base URLs: with at least one
    base URL, a non-negative index [idx] gives the address of base URL
    number [idx mod n], without a panic; a negative index panics.  A
    picker built by [NewAccessPicker] has at least one base URL. *)
Theorem getCCAddress_wraps ap idx :
  CCEndpoint ap <> [] ->
  (0 <= idx ->
   getCCAddress ap idx
   = Some (nth (Z.to_nat (idx mod len (CCEndpoint ap))) (ccAddresses ap)
             EmptyString))
  /\ (idx < 0 -> getCCAddress ap idx = None)
  /\ forall ccEndpoint ccUri idc r,
       CCEndpoint (NewAccessPicker_split ccEndpoint ccUri idc r) <> [].
Proof.
  intros Hne.
  assert (Hn : 0 < len (CCEndpoint ap)).
  { pose proof (len_nonneg (CCEndpoint ap)).
    destruct (Z.eq_dec (len (CCEndpoint ap)) 0) as [E|E]; [|lia].
    by apply len_zero_nil in E. }
  split; [|split].
  - intros Hidx.
    pose proof (Z.mod_pos_bound idx (len (CCEndpoint ap)) Hn) as Hm.
    rewrite <- (getCCAddress_in_range ap) by (unfold len in *; lia).
    rewrite Z2Nat.id by lia. unfold getCCAddress.
    destruct (Z.geb_spec idx (len (CCEndpoint ap))) as [Hge|Hlt].
    + destruct (Z.eqb_spec (len (CCEndpoint ap)) 0); [lia|].
      rewrite Z.rem_mod_nonneg by lia.
      destruct (Z.geb_spec (idx mod len (CCEndpoint ap)) (len (CCEndpoint ap)));
        [lia | done].
    + rewrite Z.mod_small by lia.
      by destruct (Z.geb_spec idx (len (CCEndpoint ap))); [lia|].
  - intros Hneg. unfold getCCAddress.
    destruct (Z.geb_spec idx (len (CCEndpoint ap))) as [Hge|_]; [lia|].
    unfold index. by destruct (Z.ltb_spec idx 0); [|lia].
  - apply NewAccessPicker_split_nonempty.
Qed.

Lemma getCCAddress_wraps_witness :
  getCCAddress Samples.picker_SZ 5 = Some "http://cc2/servers.json"%string.
Proof.
  destruct (getCCAddress_wraps Samples.picker_SZ 5) as [Hwrap _];
    [discriminate|].
  rewrite Hwrap by lia. reflexivity.
Defined.

End RefreshFacts.

Module SyncFacts.
Import AccessPicker.

Section Refresh.
Context `{Http_lib} `{Json_client_lib}.

Lemma drop_nth (l : list string) (n : nat) :
  (n < length l)%nat ->
  drop n l = nth n l EmptyString :: drop (S n) l.
Proof.
  intros Hn. destruct (lookup_lt_is_Some_2 l n Hn) as [x Hx].
  rewrite (drop_S l x n Hx). f_equal. symmetry.
  by apply nth_lookup_Some with (d := EmptyString) in Hx.
Qed.

Lemma length_ccAddresses ap : length (ccAddresses ap) = length (CCEndpoint ap).
Proof. unfold ccAddresses. by rewrite length_map. Qed.

Lemma is_nil_false (e : error) : e <> None -> is_nil e = false.
Proof. by destruct e. Qed.

(** The loop stops at the first request that succeeds. *)
Lemma tryEndpoints_first_success ap (i : nat) : forall remaining n response err,
  drop n (CCEndpoint ap) = remaining ->
  (n <= i < length (CCEndpoint ap))%nat ->
  (forall j, (n <= j < i)%nat ->
     snd (http_Get j (nth j (ccAddresses ap) EmptyString)) <> None) ->
  snd (http_Get i (nth i (ccAddresses ap) EmptyString)) = None ->
  tryEndpoints ap n remaining response err
  = Some (take (S i - n) (drop n (ccAddresses ap)),
          fst (http_Get i (nth i (ccAddresses ap) EmptyString)), None).
Proof.
  induction remaining as [|base rest IH]; intros n response err Hdrop Hi Hfail Hok.
  - apply (f_equal length) in Hdrop. rewrite length_drop in Hdrop.
    simpl in Hdrop. lia.
  - cbn [tryEndpoints]. rewrite RefreshFacts.getCCAddress_in_range by lia.
    rewrite (drop_nth (ccAddresses ap) n) by (rewrite length_ccAddresses; lia).
    destruct (http_Get n (nth n (ccAddresses ap) EmptyString))
      as [response' err'] eqn:EG.
    destruct (decide (i = n)) as [->|Hne].
    + rewrite EG in Hok. simpl in Hok. subst err'. simpl.
      replace (S n - n)%nat with 1%nat by lia. by rewrite EG.
    + assert (Herr : err' <> None).
      { specialize (Hfail n ltac:(lia)). by rewrite EG in Hfail. }
      rewrite (is_nil_false _ Herr).
      rewrite (IH (S n) response' err'); try done; try lia.
      * replace (S i - n)%nat with (S (S i - S n)) by lia. done.
      * replace (S n) with (n + 1)%nat by lia.
        by rewrite <- drop_drop, Hdrop.
      * intros j Hj. apply Hfail. lia.
Qed.

(** When every request fails, every base URL has been tried. *)
Lemma tryEndpoints_all_fail ap : forall remaining n response err,
  drop n (CCEndpoint ap) = remaining ->
  (forall j, (n <= j < length (CCEndpoint ap))%nat ->
     snd (http_Get j (nth j (ccAddresses ap) EmptyString)) <> None) ->
  (remaining = [] -> err <> None) ->
  exists response' err',
    tryEndpoints ap n remaining response err
    = Some (drop n (ccAddresses ap), response', err')
    /\ err' <> None.
Proof.
  induction remaining as [|base rest IH]; intros n response err Hdrop Hfail Herr.
  - exists response, err. split; [|by apply Herr].
    apply (f_equal length) in Hdrop. rewrite length_drop in Hdrop.
    simpl in *. rewrite drop_ge by (rewrite length_ccAddresses; lia). done.
  - assert (Hn : (n < length (CCEndpoint ap))%nat).
    { apply (f_equal length) in Hdrop. rewrite length_drop in Hdrop.
      simpl in Hdrop. lia. }
    cbn [tryEndpoints]. rewrite RefreshFacts.getCCAddress_in_range by lia.
    rewrite (drop_nth (ccAddresses ap) n) by (rewrite length_ccAddresses; lia).
    destruct (http_Get n (nth n (ccAddresses ap) EmptyString))
      as [response1 err1] eqn:EG.
    assert (Herr1 : err1 <> None).
    { specialize (Hfail n ltac:(lia)). by rewrite EG in Hfail. }
    rewrite (is_nil_false _ Herr1).
    destruct (IH (S n) response1 err1) as (response' & err' & -> & Hne).
    + replace (S n) with (n + 1)%nat by lia.
        by rewrite <- drop_drop, Hdrop.
    + intros j Hj. apply Hfail. lia.
    + done.
    + exists response', err'. done.
Qed.

(** When every base URL fails, [syncAccessEpOnce] has tried them all in
    order and leaves the picker, registry and cursor, as it was. *)
Theorem syncAccessEpOnce_all_fail ap :
  CCEndpoint ap <> [] ->
  (forall j, (j < length (CCEndpoint ap))%nat ->
     snd (http_Get j (nth j (ccAddresses ap) EmptyString)) <> None) ->
  syncAccessEpOnce ap = Some (ccAddresses ap, ap).
Proof.
  intros Hne Hfail. unfold syncAccessEpOnce.
  destruct (tryEndpoints_all_fail ap (CCEndpoint ap) 0 None None)
    as (response & err & -> & Herr); try done.
  - intros j Hj. apply Hfail. lia.
  - by rewrite (is_nil_false _ Herr).
Qed.

(** Failover.  When base URL number [i] is the first to answer without an
    error, [syncAccessEpOnce] has requested the addresses up to that one
    and no other.  What follows depends on the answer.  When reading it or
    decoding either document returns an error, the picker is left as it
    was.  When a document decodes without an error to a [nil] pointer, as
    the JSON value null does, the next field access panics.  Otherwise the
    registry is replaced by the endpoints of the decoded server list, and
    the cursor, the base URLs, the path and the idc are untouched. *)
Theorem syncAccessEpOnce_failover ap (i : nat) resp :
  (i < length (CCEndpoint ap))%nat ->
  (forall j, (j < i)%nat ->
     snd (http_Get j (nth j (ccAddresses ap) EmptyString)) <> None) ->
  http_Get i (nth i (ccAddresses ap) EmptyString) = (Some resp, None) ->
  let requested := take (S i) (ccAddresses ap) in
  forall buf berr acr aerr,
    Body resp = (buf, berr) ->
    json_AccessServerResponse buf = (acr, aerr) ->
    (berr <> None \/ aerr <> None ->
     syncAccessEpOnce ap = Some (requested, ap))
    /\ (berr = None -> aerr = None -> acr = None -> syncAccessEpOnce ap = None)
    /\ forall acr_WemqAccessServer sl serr,
         berr = None -> aerr = None -> acr = Some acr_WemqAccessServer ->
         json_ServerList acr_WemqAccessServer = (sl, serr) ->
         (serr <> None -> syncAccessEpOnce ap = Some (requested, ap))
         /\ (serr = None -> sl = None -> syncAccessEpOnce ap = None)
         /\ forall sl_WemqAccessServer,
              serr = None -> sl = Some sl_WemqAccessServer ->
              exists ap',
                syncAccessEpOnce ap = Some (requested, ap')
                /\ accessEndpointList ap'
                   = endpointsOf (idc ap) (Split sl_WemqAccessServer ";")
                /\ idx ap' = idx ap /\ CCEndpoint ap' = CCEndpoint ap
                /\ CCUri ap' = CCUri ap /\ idc ap' = idc ap.
Proof.
  intros Hi Hfail Hok requested buf berr acr aerr Hbody Ha.
  unfold syncAccessEpOnce.
  rewrite (tryEndpoints_first_success ap i (CCEndpoint ap) 0 None None);
    try done; try lia.
  2: { intros j Hj. apply Hfail. lia. }
  2: { by rewrite Hok. }
  rewrite Hok. cbn [fst is_nil negb]. rewrite Nat.sub_0_r, drop_0.
  rewrite Hbody, Ha. fold requested.
  split; [|split].
  - intros [Hb|Hb].
    + by rewrite (is_nil_false _ Hb).
    + destruct berr; [done|]. by rewrite (is_nil_false _ Hb).
  - by intros -> -> ->.
  - intros a sl serr -> -> -> Hs. cbn [is_nil negb]. rewrite Hs.
    split; [|split].
    + intros Hb. by rewrite (is_nil_false _ Hb).
    + by intros -> ->.
    + intros s -> ->. cbn [is_nil negb]. eexists. split; [reflexivity|]. done.
Qed.

End Refresh.

Lemma syncAccessEpOnce_all_fail_witness :
  syncAccessEpOnce (H := Samples.http_down) (H0 := Samples.json_client)
    Samples.picker_SZ
  = Some (ccAddresses Samples.picker_SZ, Samples.picker_SZ).
Proof.
  apply (syncAccessEpOnce_all_fail (H := Samples.http_down)
           (H0 := Samples.json_client) Samples.picker_SZ).
  - discriminate.
  - intros j _. discriminate.
Defined.

Lemma syncAccessEpOnce_failover_witness :
  (exists ap',
     syncAccessEpOnce (H := Samples.http) (H0 := Samples.json_client)
       Samples.picker_SZ
     = Some (["http://cc1/servers.json"; "http://cc2/servers.json"]%string, ap')
     /\ idx ap' = 42
     /\ accessEndpointList ap' = ["10.0.0.1:80"%string])
  /\ syncAccessEpOnce (H := Samples.http_null) (H0 := Samples.json_client)
       Samples.picker_SZ = None.
Proof.
  split.
  - destruct (syncAccessEpOnce_failover (H := Samples.http)
                (H0 := Samples.json_client) Samples.picker_SZ 1
                (mkResponse ("outer"%string, None))) with
        (buf := "outer"%string) (berr := @None string)
        (acr := Some "inner"%string) (aerr := @None string)
      as (_ & _ & Hdecoded).
    + vm_compute. lia.
    + intros j Hj. assert (j = 0%nat) as -> by lia. discriminate.
    + reflexivity.
    + reflexivity.
    + reflexivity.
    + destruct (Hdecoded "inner"%string
                  (Some "10.0.0.1:80#1|SZ;10.0.0.2:80#1|GZ"%string) None
                  eq_refl eq_refl eq_refl eq_refl)
        as (_ & _ & Hlist).
      destruct (Hlist _ eq_refl eq_refl) as (ap' & Hsync & Hl & Hidx & _).
      exists ap'. split; [exact Hsync|]. split; [exact Hidx|].
      rewrite Hl. vm_compute. reflexivity.
  - destruct (syncAccessEpOnce_failover (H := Samples.http_null)
                (H0 := Samples.json_client) Samples.picker_SZ 0
                (mkResponse ("null"%string, None))) with
        (buf := "null"%string) (berr := @None string)
        (acr := @None string) (aerr := @None string)
      as (_ & Hnil & _).
    + vm_compute. lia.
    + intros j Hj. lia.
    + reflexivity.
    + reflexivity.
    + reflexivity.
    + by apply Hnil.
Defined.

End SyncFacts.

(** *** The policy across reloads *)

Module PolicyFacts.
Import ACLManager.

Section Reload.
Context `{Json_lib} `{Regexp_lib}.

Lemma syncOnce_cases file m :
  (syncOnce file m = m
   /\ (snd file <> None \/ snd (json_Unmarshal (fst file)) <> None))
  \/ (syncOnce file m
      = mk (aclFilepath m)
          (<[new_addr (heap m) := fst (json_Unmarshal (fst file))]> (heap m))
          (new_addr (heap m))
      /\ snd file = None /\ snd (json_Unmarshal (fst file)) = None).
Proof.
  unfold syncOnce. destruct file as [b [e|]]; simpl; [left; eauto|].
  destruct (json_Unmarshal b) as [c [e|]]; simpl; [left; eauto|].
  right. done.
Qed.

Lemma new_addr_unused h : h !! new_addr h = None.
Proof. apply not_elem_of_dom. unfold new_addr. apply (is_fresh (dom h)). Qed.

(** A reload never changes or frees a document that is already in the
    heap: a reader that took [m.cfg] before the reload reads the same
    document after it.  The pointer is never left dangling, and a file
    that cannot be read or parsed leaves the manager as it was. *)
Theorem syncOnce_keeps_snapshots file m :
  allocated m ->
  allocated (syncOnce file m)
  /\ (forall p c, heap m !! p = Some c -> heap (syncOnce file m) !! p = Some c)
  /\ (snd file <> None \/ snd (json_Unmarshal (fst file)) <> None ->
      syncOnce file m = m).
Proof.
  intros Ha.
  destruct (syncOnce_cases file m) as [[-> Hfail] | (-> & Hr & Hp)].
  - done.
  - split; [|split].
    + unfold allocated. simpl. rewrite lookup_insert_eq. eauto.
    + intros p c Hp'. simpl. rewrite lookup_insert_ne; [done|].
      intros <-. by rewrite new_addr_unused in Hp'.
    + intros [?|?]; done.
Qed.

Lemma deref_reloaded file m :
  snd file = None -> snd (json_Unmarshal (fst file)) = None ->
  deref (syncOnce file m) = fst (json_Unmarshal (fst file)).
Proof.
  intros Hr Hp.
  destruct (syncOnce_cases file m) as [[_ [?|?]] | (-> & _ & _)]; try done.
  unfold deref. simpl. by rewrite lookup_insert_eq.
Qed.

(** After a reload that reads and parses the file, every decision is made
    against the parsed document. *)
Theorem decisions_after_reload b c m labels :
  json_Unmarshal b = (c, None) ->
  IsAllow (syncOnce (b, None) m) labels = IsAllow (serving c) labels
  /\ GetFilterOption (syncOnce (b, None) m) labels
     = GetFilterOption (serving c) labels
  /\ TailingCompressed' (syncOnce (b, None) m) = TailingCompressed c.
Proof.
  intros Hb.
  assert (Hd : deref (syncOnce (b, None) m) = c).
  { rewrite deref_reloaded; simpl; rewrite ?Hb; done. }
  unfold IsAllow, IsAllow_in, GetFilterOption, TailingCompressed'.
  by rewrite Hd, ACLManagerFacts.deref_serving.
Qed.

(** The two versions of [syncOnce] do the same on every input: the
    comparison added before the assignment never skips it. *)
Theorem syncOnce_versions_agree file m :
  syncOnce file m = syncOnce_assign file m.
Proof.
  unfold syncOnce, syncOnce_assign. destruct file as [b e].
  destruct (negb (is_nil e)); [done|].
  destruct (json_Unmarshal b) as [c e'].
  destruct (negb (is_nil e')); [done|].
  by rewrite ACLManagerFacts.DeepEqual_struct_pointer.
Qed.

(** Fail open.  When the first load at startup cannot read or parse the
    file, the manager serves the empty policy: every label set is allowed,
    the filter case is the empty one, compressed files are not tailed. *)
Theorem startup_without_policy path file labels :
  snd file <> None \/ snd (json_Unmarshal (fst file)) <> None ->
  let m := syncOnce file (NewACLManager path) in
  IsAllow m labels = true
  /\ GetFilterOption m labels = zeroFilterCase
  /\ TailingCompressed' m = false.
Proof.
  intros Hfail m.
  assert (Hm : m = NewACLManager path).
  { unfold m.
    destruct (syncOnce_cases file (NewACLManager path))
      as [[-> _] | (_ & Hr & Hp)]; [done|].
    destruct Hfail; done. }
  rewrite Hm. done.
Qed.

End Reload.

Section Labels.
Context `{Regexp_lib}.

Lemma matches_some_frame labels1 labels2 (list : gmap string string) :
  (forall l, is_Some (list !! l) -> label labels1 l = label labels2 l) ->
  matches_some labels1 list -> matches_some labels2 list.
Proof.
  intros Hsame (l & v & Hl & Hm). exists l, v. split; [done|].
  rewrite <- Hsame by eauto. done.
Qed.

(** [IsAllow] reads only the labels that the allow-list and the block-list
    name, and reads an absent label as the empty string: two label sets
    that agree on those labels get the same answer, and adding a label
    with an empty value changes nothing. *)
Theorem IsAllow_reads_listed_labels m labels1 labels2 :
  (forall l,
     is_Some (AllowList (deref m) !! l) \/ is_Some (BlockList (deref m) !! l) ->
     label labels1 l = label labels2 l) ->
  IsAllow m labels1 = IsAllow m labels2
  /\ forall l, labels1 !! l = None ->
       IsAllow m (<[l := EmptyString]> labels1) = IsAllow m labels1.
Proof.
  assert (Hframe : forall la lb,
    (forall l,
       is_Some (AllowList (deref m) !! l) \/ is_Some (BlockList (deref m) !! l) ->
       label la l = label lb l) ->
    IsAllow m la = IsAllow m lb).
  { intros la lb Hsame. apply ACLManagerFacts.bool_eq_iff.
    rewrite !ACLManagerFacts.IsAllow_iff.
    assert (Ha : matches_some la (AllowList (deref m))
                 <-> matches_some lb (AllowList (deref m))).
    { split; apply matches_some_frame; intros l Hl;
        [|symmetry]; apply Hsame; by left. }
    assert (Hb : matches_some la (BlockList (deref m))
                 <-> matches_some lb (BlockList (deref m))).
    { split; apply matches_some_frame; intros l Hl;
        [|symmetry]; apply Hsame; by right. }
    tauto. }
  intros Hsame. split; [by apply Hframe|].
  intros l Hl. apply Hframe. intros l' _. unfold label.
  destruct (decide (l = l')) as [<-|Hne].
  - by rewrite lookup_insert_eq, Hl.
  - by rewrite lookup_insert_ne.
Qed.

Lemma range_FilterOptions_frame labels1 labels2 fs dflt :
  (forall f, In f fs -> labels1 !! Key f = labels2 !! Key f) ->
  range_FilterOptions labels1 fs dflt = range_FilterOptions labels2 fs dflt.
Proof.
  induction fs as [|f rest IH]; intros Hsame; [done|].
  cbn [range_FilterOptions]. rewrite (Hsame f) by (by left).
  rewrite IH by (intros g Hg; apply Hsame; by right). done.
Qed.

Lemma range_FilterOptions_absent labels fs dflt :
  (forall f, In f fs -> labels !! Key f = None) ->
  range_FilterOptions labels fs dflt = dflt.
Proof.
  induction fs as [|f rest IH]; intros Habs; [done|].
  cbn [range_FilterOptions]. rewrite (Habs f) by (by left).
  apply IH. intros g Hg. apply Habs. by right.
Qed.

Lemma range_FilterOptions_member labels fs dflt :
  range_FilterOptions labels fs dflt = dflt
  \/ In (range_FilterOptions labels fs dflt) fs.
Proof.
  induction fs as [|f rest IH]; [by left|].
  cbn [range_FilterOptions].
  destruct (labels !! Key f) as [v|]; [destruct (matches (Value f) v)|].
  - right. by left.
  - destruct IH; [by left | right; by right].
  - destruct IH; [by left | right; by right].
Qed.

(** [GetFilterOption] returns a configured case or the default, and reads
    only the labels that are keys of the configured cases.  Unlike
    [IsAllow] it does not read an absent label as empty: when no key of a
    case is present, in particular for the empty label set, the default
    is returned whatever the regexes. *)
Theorem GetFilterOption_reads_keys m labels1 labels2 :
  (forall f, In f (FilterOptions (deref m)) ->
     labels1 !! Key f = labels2 !! Key f) ->
  GetFilterOption m labels1 = GetFilterOption m labels2
  /\ (GetFilterOption m labels1 = DefaultFilterOption (deref m)
      \/ In (GetFilterOption m labels1) (FilterOptions (deref m)))
  /\ ((forall f, In f (FilterOptions (deref m)) -> labels1 !! Key f = None) ->
      GetFilterOption m labels1 = DefaultFilterOption (deref m))
  /\ GetFilterOption m ∅ = DefaultFilterOption (deref m).
Proof.
  intros Hsame. unfold GetFilterOption. split; [|split; [|split]].
  - by apply range_FilterOptions_frame.
  - apply range_FilterOptions_member.
  - apply range_FilterOptions_absent.
  - apply range_FilterOptions_absent. intros f _. apply lookup_empty.
Qed.

End Labels.

Lemma syncOnce_keeps_snapshots_witness :
  let m := NewACLManager "acl.json" in
  let m' := syncOnce (H := Samples.json) ("{allow_list:{app:web}}"%string, None) m in
  allocated m'
  /\ heap m' !! cfg m = Some zeroACLConfig
  /\ cfg m' <> cfg m.
Proof.
  intros m m'.
  destruct (syncOnce_keeps_snapshots (H := Samples.json)
              ("{allow_list:{app:web}}"%string, None) m) as (Ha & Hkeep & _).
  - by eexists.
  - split; [exact Ha|]. split; [|vm_compute; discriminate].
    apply Hkeep. reflexivity.
Defined.

Lemma decisions_after_reload_witness :
  IsAllow (H := Samples.regexp)
    (syncOnce (H := Samples.json) ("{allow_list:{app:web}}"%string, None)
       (NewACLManager "acl.json"))
    {[ "app"%string := "db"%string ]}
  = false.
Proof.
  destruct (decisions_after_reload (H := Samples.json) (H0 := Samples.regexp)
              "{allow_list:{app:web}}"
              (mkACLConfig {[ "app"%string := "web"%string ]} ∅ []
                 zeroFilterCase false [])
              (NewACLManager "acl.json") {[ "app"%string := "db"%string ]})
    as (-> & _); [reflexivity|].
  vm_compute. reflexivity.
Defined.

Lemma startup_without_policy_witness :
  IsAllow (H := Samples.regexp)
    (syncOnce (H := Samples.json) ("not json"%string, None)
       (NewACLManager "acl.json"))
    Samples.labels = true.
Proof.
  destruct (startup_without_policy (H := Samples.json) (H0 := Samples.regexp)
              "acl.json" ("not json"%string, None) Samples.labels)
    as (Hallow & _); [right; discriminate|].
  exact Hallow.
Defined.

Lemma IsAllow_reads_listed_labels_witness :
  IsAllow (H := Samples.regexp) (serving Samples.policy)
    (<[ "host"%string := "h1"%string ]> Samples.labels)
  = IsAllow (H := Samples.regexp) (serving Samples.policy) Samples.labels.
Proof.
  destruct (IsAllow_reads_listed_labels (H := Samples.regexp)
              (serving Samples.policy)
              (<[ "host"%string := "h1"%string ]> Samples.labels)
              Samples.labels) as [Hsame _]; [|exact Hsame].
  intros l [[v Hl] | [v Hl]]; rewrite ACLManagerFacts.deref_serving in Hl;
    simpl in Hl; apply lookup_singleton_Some in Hl as [<- _];
    vm_compute; reflexivity.
Defined.

Lemma GetFilterOption_reads_keys_witness :
  GetFilterOption (H := Samples.regexp) (serving Samples.policy)
    (<[ "host"%string := "h1"%string ]> Samples.labels)
  = GetFilterOption (H := Samples.regexp) (serving Samples.policy) Samples.labels.
Proof.
  destruct (GetFilterOption_reads_keys (H := Samples.regexp)
              (serving Samples.policy)
              (<[ "host"%string := "h1"%string ]> Samples.labels)
              Samples.labels) as [Hsame _]; [|exact Hsame].
  intros f Hf. rewrite ACLManagerFacts.deref_serving in Hf. simpl in Hf.
  destruct Hf as [<- | [<- | [<- | []]]]; vm_compute; reflexivity.
Defined.

End PolicyFacts.

(** *** The discovery pipeline and the life of a result *)

Module DiscoveryFacts.
Import GlobSearcher.

Lemma dropNoUpdatePath_filter fs matched period :
  dropNoUpdatePath fs matched period
  = List.filter
      (fun p => match ModTime fs p with
                | Some modTime => modTime + period >? Now fs
                | None => false
                end) matched.
Proof.
  induction matched as [|p rest IH]; [done|].
  cbn [dropNoUpdatePath List.filter]. rewrite IH.
  destruct (ModTime fs p) as [t|]; [|done]. by destruct (t + period >? Now fs).
Qed.

Lemma dropNoUpdatePath_In fs matched period p :
  In p (dropNoUpdatePath fs matched period)
  <-> In p matched /\ recent fs period p.
Proof.
  rewrite dropNoUpdatePath_filter, filter_In. apply and_iff_compat_l.
  unfold recent. destruct (ModTime fs p) as [t|].
  - rewrite Z.gtb_ltb, Z.ltb_lt. split.
    + intros Hlt. by exists t.
    + by intros (t' & [= <-] & Hlt).
  - split; [done | by intros (t' & [=] & _)].
Qed.

(** The staleness stage keeps exactly the candidates that can be stat'd
    and were modified less than [period] ago.  A file modified exactly
    [period] ago, or earlier, is dropped, and so is one that cannot be
    stat'd. *)
Theorem dropNoUpdatePath_recent fs matched period p :
  (In p (dropNoUpdatePath fs matched period)
   <-> In p matched /\ recent fs period p)
  /\ (forall modTime,
        ModTime fs p = Some modTime -> modTime + period <= Now fs ->
        ~ In p (dropNoUpdatePath fs matched period))
  /\ (ModTime fs p = None -> ~ In p (dropNoUpdatePath fs matched period)).
Proof.
  split; [apply dropNoUpdatePath_In|]. split.
  - intros t Ht Hold. rewrite dropNoUpdatePath_In.
    intros (_ & t' & Ht' & Hlt). assert (t' = t) by congruence. lia.
  - intros Hnone. rewrite dropNoUpdatePath_In.
    intros (_ & t' & Ht' & _). congruence.
Qed.

Lemma dropNoUpdatePath_recent_witness :
  In "a/x.log"%string
    (dropNoUpdatePath Samples.fs_ages
       ["a/x.log"; "a/old.log"; "a/gone.log"]%string (Minute * 30))
  /\ ~ In "a/old.log"%string
       (dropNoUpdatePath Samples.fs_ages
          ["a/x.log"; "a/old.log"; "a/gone.log"]%string (Minute * 30))
  /\ ~ In "a/gone.log"%string
       (dropNoUpdatePath Samples.fs_ages
          ["a/x.log"; "a/old.log"; "a/gone.log"]%string (Minute * 30)).
Proof.
  split; [|split].
  - apply (dropNoUpdatePath_recent Samples.fs_ages). split.
    + by left.
    + exists (50 * Minute). split; [reflexivity | vm_compute; reflexivity].
  - destruct (dropNoUpdatePath_recent Samples.fs_ages
                ["a/x.log"; "a/old.log"; "a/gone.log"]%string (Minute * 30)
                "a/old.log") as (_ & Hold & _).
    apply (Hold (20 * Minute)); [reflexivity | vm_compute; discriminate].
  - destruct (dropNoUpdatePath_recent Samples.fs_ages
                ["a/x.log"; "a/old.log"; "a/gone.log"]%string (Minute * 30)
                "a/gone.log") as (_ & _ & Hgone).
    by apply Hgone.
Defined.

Section Stages.
Context `{Doublestar_lib} `{Path_lib}.

Lemma filterSuffix_filter matches suffixFilter :
  filterSuffix matches suffixFilter
  = List.filter
      (fun p => (len suffixFilter =? 0) || hasAnySuffix p suffixFilter) matches.
Proof.
  unfold filterSuffix. destruct (len suffixFilter =? 0); simpl.
  - symmetry. apply forallb_filter_id. by apply forallb_forall.
  - apply GlobSearcherFacts.filteredPaths_filter.
Qed.

Lemma filter_filter_comm {A} (f g : A -> bool) (l : list A) :
  List.filter f (List.filter g l) = List.filter g (List.filter f l).
Proof.
  induction l as [|x l IH]; [done|]. simpl.
  destruct (f x) eqn:Ef, (g x) eqn:Eg; simpl; rewrite ?Ef, ?Eg, IH; done.
Qed.

Lemma filter_sublist {A} (f : A -> bool) (l : list A) :
  sublist (List.filter f l) l.
Proof.
  induction l as [|x l IH]; simpl; [constructor|].
  destruct (f x); by constructor.
Qed.

(** What the worker caches for a task: the paths the glob expands to that
    match no exclusion glob, end with a configured suffix when suffixes
    are configured, and were modified within the last thirty minutes; in
    the order of the glob expansion. *)
Theorem pipeline_matches fs task p :
  (In p (matches (pipeline fs task))
   <-> In p (fst (doublestar_Glob (Path task)))
       /\ ~ excluded p (ExcludePath task)
       /\ (SuffixFilter task = []
           \/ has_configured_suffix p (SuffixFilter task))
       /\ recent fs (Minute * 30) p)
  /\ sublist (matches (pipeline fs task)) (fst (doublestar_Glob (Path task))).
Proof.
  unfold pipeline. destruct (doublestar_Glob (Path task)) as [ms e].
  cbn [matches err dropExcludedPath fst].
  rewrite GlobSearcherFacts.afterExcludeMatches_filter, filterSuffix_filter.
  split.
  - rewrite dropNoUpdatePath_In, !filter_In.
    rewrite <- GlobSearcherFacts.keep_excluded.
    rewrite orb_true_iff, Z.eqb_eq, len_zero_nil,
      GlobSearcherFacts.hasAnySuffix_iff.
    destruct (keep p (ExcludePath task)); intuition congruence.
  - rewrite dropNoUpdatePath_filter.
    etrans; [apply filter_sublist|].
    etrans; [apply filter_sublist|]. apply filter_sublist.
Qed.

(** The three filtering stages commute: the exclusion, suffix and staleness
    stages give the same list in whatever order they run. *)
Theorem stages_commute fs ms ex sf period :
  filterSuffix (fst (dropExcludedPath ms ex)) sf
  = fst (dropExcludedPath (filterSuffix ms sf) ex)
  /\ dropNoUpdatePath fs (filterSuffix ms sf) period
     = filterSuffix (dropNoUpdatePath fs ms period) sf
  /\ dropNoUpdatePath fs (fst (dropExcludedPath ms ex)) period
     = fst (dropExcludedPath (dropNoUpdatePath fs ms period) ex).
Proof.
  unfold dropExcludedPath. cbn [fst].
  rewrite !GlobSearcherFacts.afterExcludeMatches_filter, !filterSuffix_filter,
    !dropNoUpdatePath_filter.
  split; [|split]; apply filter_filter_comm.
Qed.

(** Exclusion globs that [path.Match] rejects as malformed exclude
    nothing, and an empty suffix among the suffix filters keeps every
    candidate. *)
Theorem lenient_filters ms ex sf :
  ((forall ep m, In ep ex -> snd (path_Match ep m) <> None) ->
   dropExcludedPath ms ex = (ms, None))
  /\ (In EmptyString sf -> filterSuffix ms sf = ms).
Proof.
  split.
  - intros Hbad. unfold dropExcludedPath. f_equal.
    rewrite GlobSearcherFacts.afterExcludeMatches_filter.
    apply forallb_filter_id, forallb_forall. intros m _.
    destruct (keep m ex) eqn:Ek; [done|].
    apply GlobSearcherFacts.keep_excluded in Ek as (ep & Hin & Hm).
    specialize (Hbad ep m Hin). unfold glob_matches in Hm.
    by rewrite Hm in Hbad.
  - intros Hin. rewrite filterSuffix_filter.
    apply forallb_filter_id, forallb_forall. intros p _.
    apply orb_true_iff. right. apply GlobSearcherFacts.hasAnySuffix_iff.
    exists EmptyString. split; [done|]. exists p.
    clear. induction p as [|c p IH]; [done|].
    change (String c p = String c (String.append p EmptyString)).
    by rewrite <- IH.
Qed.

End Stages.

End DiscoveryFacts.

Module CacheFacts.
Import GlobSearcher.

Lemma lenient_filters_witness :
  dropExcludedPath (H := Samples.path) ["a/x.log"; "a/y.txt"]%string ["["%string]
  = (["a/x.log"; "a/y.txt"]%string, None)
  /\ filterSuffix ["a/x.log"; "a/y.txt"]%string [".log"; ""]%string
     = ["a/x.log"; "a/y.txt"]%string.
Proof.
  destruct (DiscoveryFacts.lenient_filters (H0 := Samples.path)
              ["a/x.log"; "a/y.txt"]%string ["["%string] [".log"; ""]%string)
    as [Hex Hsf].
  split.
  - apply Hex. intros ep m [<- | []]. discriminate.
  - apply Hsf. right. by left.
Defined.

Section Cache.
Context `{Doublestar_lib} `{Path_lib}.

Lemma step_result_grows ev sys sys' p :
  step ev sys = Some sys' ->
  is_Some (result (searcher sys) !! p) ->
  is_Some (result (searcher sys') !! p).
Proof.
  intros Hstep Hp. destruct ev as [path ex sf | | fs]; simpl in Hstep.
  - injection Hstep as <-. simpl. unfold Search.
    destruct (inProcess (searcher sys) !! path);
      by destruct (result _ !! path).
  - destruct (worker sys); [done|].
    destruct (queue (searcher sys)); [done|]. by injection Hstep as <-.
  - destruct (worker sys) as [t|]; [|done]. injection Hstep as <-. simpl.
    destruct (decide (Path t = p)) as [->|Hne].
    + rewrite lookup_insert_eq. eauto.
    + by rewrite lookup_insert_ne.
Qed.

(** A cached result is replaced, never removed: once a pattern has a
    result, it has one after any further calls and worker steps. *)
Theorem result_never_removed evs : forall sys sys' p,
  exec evs sys = Some sys' ->
  is_Some (result (searcher sys) !! p) ->
  is_Some (result (searcher sys') !! p).
Proof.
  induction evs as [|ev evs IH]; intros sys sys' p Hexec Hp; simpl in Hexec.
  - by injection Hexec as <-.
  - destruct (step ev sys) as [sys1|] eqn:Hstep; [|done].
    eapply IH; [exact Hexec|]. by eapply step_result_grows.
Qed.

Lemma idle_unmarked sys path :
  reachable sys -> idle sys -> inProcess (searcher sys) !! path = None.
Proof.
  intros Hreach [Hw Hq].
  pose proof (GlobSearcherFacts.reachable_marker_counts sys Hreach path) as Hinv.
  unfold inFlight in Hinv. rewrite Hw, Hq in Hinv. simpl in Hinv.
  by destruct (inProcess (searcher sys) !! path).
Qed.

(** The calls coalesced into a computation do not reach it: whatever
    exclusions and suffixes the later calls pass, the result cached when
    the worker finishes is the one for the parameters of the call that
    enqueued the task. *)
Theorem coalesced_parameters_dropped sys path ex sf params1 params2 fs :
  reachable sys -> idle sys ->
  exists sys',
    exec (CallSearch path ex sf :: calls path params1
          ++ Receive :: calls path params2 ++ [Finish fs]) sys
    = Some sys'
    /\ result (searcher sys') !! path = Some (pipeline fs (mkTask path ex sf))
    /\ forall ex' sf',
         fst (Search (searcher sys') path ex' sf')
         = (matches (pipeline fs (mkTask path ex sf)), None).
Proof.
  intros Hreach Hidle.
  pose proof (idle_unmarked sys path Hreach Hidle) as Hnone.
  destruct Hidle as [Hw Hq].
  cbn [exec step]. rewrite GlobSearcherFacts.Search_enqueues by done. cbn [snd].
  rewrite GlobSearcherFacts.exec_calls_coalesced
    by (cbn [searcher inProcess]; rewrite lookup_insert_eq; eauto).
  cbn [exec step worker searcher queue inProcess result scans].
  rewrite Hw, Hq. cbn [app].
  rewrite GlobSearcherFacts.exec_calls_coalesced
    by (cbn [searcher inProcess]; rewrite lookup_insert_eq; eauto).
  cbn [exec step worker searcher queue inProcess result scans Path].
  eexists. split; [reflexivity|]. cbn [searcher result].
  split; [by rewrite lookup_insert_eq|].
  intros ex' sf'. unfold Search. cbn [inProcess result].
  rewrite lookup_delete_eq. cbn [result]. rewrite lookup_insert_eq.
  cbn [fst]. f_equal.
  unfold pipeline. destruct (doublestar_Glob _). reflexivity.
Qed.

(** Once the worker has finished a task the marker is cleared: the next
    call for the pattern enqueues a fresh computation, with its own
    parameters, and calls made while that one is in flight are served the
    result of the finished one. *)
Theorem recomputation_serves_stale sys path ex sf fs ex2 sf2 :
  reachable sys -> idle sys ->
  exists sys',
    exec [CallSearch path ex sf; Receive; Finish fs; CallSearch path ex2 sf2]
      sys = Some sys'
    /\ queue (searcher sys') = [mkTask path ex2 sf2]
    /\ inFlight sys' path = 1%nat
    /\ forall ex3 sf3,
         Search (searcher sys') path ex3 sf3
         = ((matches (pipeline fs (mkTask path ex sf)), None), searcher sys').
Proof.
  intros Hreach Hidle.
  pose proof (idle_unmarked sys path Hreach Hidle) as Hnone.
  destruct Hidle as [Hw Hq].
  cbn [exec step]. rewrite GlobSearcherFacts.Search_enqueues by done. cbn [snd].
  cbn [exec step worker searcher queue inProcess result scans].
  rewrite Hw, Hq. cbn [app].
  cbn [exec step worker searcher queue inProcess result scans Path].
  rewrite GlobSearcherFacts.Search_enqueues
    by (cbn [inProcess]; apply lookup_delete_eq).
  cbn [snd queue app].
  eexists. split; [reflexivity|]. cbn [searcher queue].
  split; [done|]. split.
  { unfold inFlight. cbn [searcher queue worker Path].
    rewrite filter_cons_True by done. done. }
  intros ex3 sf3.
  rewrite GlobSearcherFacts.Search_coalesced
    by (cbn [inProcess]; rewrite lookup_insert_eq; eauto).
  f_equal. unfold cached. cbn [result]. rewrite lookup_insert_eq.
  f_equal. unfold pipeline. destruct (doublestar_Glob _). reflexivity.
Qed.

End Cache.

Lemma pipeline_matches_witness :
  In "a/x.log"%string
    (matches (pipeline (H := Samples.doublestar) (H0 := Samples.path)
                Samples.fs (mkTask "a/*" ["a/skip.log"%string] [".log"%string]))).
Proof.
  apply (DiscoveryFacts.pipeline_matches (H := Samples.doublestar)
           (H0 := Samples.path) Samples.fs
           (mkTask "a/*" ["a/skip.log"%string] [".log"%string]) "a/x.log").
  split; [vm_compute; tauto|]. split; [|split].
  - intros (ep & [<- | []] & Hm). vm_compute in Hm. discriminate.
  - right. exists ".log"%string. split; [by left|]. by exists "a/x"%string.
  - exists 0. split; [reflexivity | vm_compute; reflexivity].
Defined.

Lemma result_never_removed_witness :
  exists sys',
    exec (H := Samples.doublestar) (H0 := Samples.path)
      [CallSearch "[" [] []; Receive; Finish Samples.fs;
       CallSearch "a/*" [] []] Samples.scanned = Some sys'
    /\ is_Some (result (searcher sys') !! "a/*"%string).
Proof.
  eexists. split; [vm_compute; reflexivity|].
  eapply (result_never_removed (H := Samples.doublestar) (H0 := Samples.path)
            [CallSearch "[" [] []; Receive; Finish Samples.fs;
             CallSearch "a/*" [] []] Samples.scanned).
  - vm_compute. reflexivity.
  - vm_compute. eauto.
Defined.

Lemma coalesced_parameters_dropped_witness :
  exists sys',
    exec (H := Samples.doublestar) (H0 := Samples.path)
      (CallSearch "a/*" [] [".log"%string]
       :: calls "a/*" [(["a/x.log"%string], [])]
       ++ Receive :: calls "a/*" [([], [".txt"%string])]
       ++ [Finish Samples.fs]) init
    = Some sys'
    /\ result (searcher sys') !! "a/*"%string
       = Some (pipeline (H := Samples.doublestar) (H0 := Samples.path)
                 Samples.fs (mkTask "a/*" [] [".log"%string]))
    /\ forall ex' sf',
         fst (Search (searcher sys') "a/*" ex' sf')
         = (matches (pipeline (H := Samples.doublestar) (H0 := Samples.path)
                       Samples.fs (mkTask "a/*" [] [".log"%string])), None).
Proof.
  apply (coalesced_parameters_dropped (H := Samples.doublestar)
           (H0 := Samples.path) init "a/*" [] [".log"%string]).
  - apply reach_init.
  - split; reflexivity.
Defined.

Lemma recomputation_serves_stale_witness :
  exists sys',
    exec (H := Samples.doublestar) (H0 := Samples.path)
      [CallSearch "a/*" [] [".log"%string]; Receive; Finish Samples.fs;
       CallSearch "a/*" [] [".txt"%string]] init = Some sys'
    /\ queue (searcher sys') = [mkTask "a/*" [] [".txt"%string]]
    /\ inFlight sys' "a/*" = 1%nat
    /\ forall ex3 sf3,
         Search (searcher sys') "a/*" ex3 sf3
         = ((matches (pipeline (H := Samples.doublestar) (H0 := Samples.path)
                        Samples.fs (mkTask "a/*" [] [".log"%string])), None),
            searcher sys').
Proof.
  apply (recomputation_serves_stale (H := Samples.doublestar)
           (H0 := Samples.path) init "a/*" [] [".log"%string]).
  - apply reach_init.
  - split; reflexivity.
Defined.

End CacheFacts.

(** *** The discovery adapter *)

Module WebhookFacts.
Import Webhook.

Lemma labelPrefix_inj k1 k2 :
  String.append labelPrefix k1 = String.append labelPrefix k2 -> k1 = k2.
Proof. unfold labelPrefix. simpl. by intros [=]. Qed.

Lemma range_Labels_other entries : forall ls key,
  (forall k v, In (k, v) entries -> key <> String.append labelPrefix k) ->
  range_Labels entries ls !! key = ls !! key.
Proof.
  induction entries as [|[k v] rest IH]; intros ls key Hother; [done|].
  cbn [range_Labels]. rewrite IH.
  - apply lookup_insert_ne. intros E. apply (Hother k v); [by left | done].
  - intros k' v' Hin. apply (Hother k' v'). by right.
Qed.

Lemma range_Labels_entry entries : forall ls k v,
  base.NoDup (entries.*1) -> In (k, v) entries ->
  range_Labels entries ls !! String.append labelPrefix k = Some v.
Proof.
  induction entries as [|[k0 v0] rest IH]; intros ls k v Hnd Hin; [done|].
  apply NoDup_cons in Hnd as [Hk0 Hnd']. cbn [range_Labels].
  destruct Hin as [[= -> ->] | Hin].
  - rewrite range_Labels_other; [apply lookup_insert_eq|].
    intros k' v' Hin' E. apply labelPrefix_inj in E as <-.
    apply Hk0. apply list_elem_of_In in Hin'.
    by apply (list_elem_of_fmap_2 fst) in Hin'.
  - by apply IH.
Qed.

Section Targets.
Context `{Filepath_lib}.

Lemma reserved_not_prefixed k :
  subsystemLabel <> String.append labelPrefix k
  /\ subsystemIdLabel <> String.append labelPrefix k
  /\ logDirLabel <> String.append labelPrefix k
  /\ HostLabel <> String.append labelPrefix k.
Proof. repeat split; intros E; vm_compute in E; discriminate. Qed.

Lemma base_lookups order d resp si key :
  (forall k v, In (k, v) order -> key <> String.append labelPrefix k) ->
  target_in order d resp si !! key
  = if decide (key = HostLabel) then Some (LocalIP d)
    else if decide (key = logDirLabel) then Some (logDir_of resp si)
    else if decide (key = subsystemIdLabel) then Some (SubsystemId si)
    else if decide (key = subsystemLabel) then Some (SubsystemName si)
    else None.
Proof.
  intros Hother. unfold target_in. rewrite range_Labels_other by done.
  unfold logDir_of.
  destruct (String.eqb (LogDir si) EmptyString); cbn [negb];
    rewrite lookup_insert; destruct (decide (HostLabel = key)) as [<-|Hh];
    try (by rewrite decide_True);
    rewrite decide_False by done;
    rewrite lookup_insert; destruct (decide (logDirLabel = key)) as [<-|Hl];
    try (by rewrite decide_True);
    rewrite decide_False by done;
    rewrite lookup_insert; destruct (decide (subsystemIdLabel = key)) as [<-|Hi];
    try (by rewrite decide_True);
    rewrite decide_False by done;
    rewrite lookup_insert; destruct (decide (subsystemLabel = key)) as [<-|Hs];
    try (by rewrite decide_True);
    rewrite decide_False by done; apply lookup_empty.
Qed.

Lemma target_in_lookups order d resp si :
  order ≡ₚ map_to_list (Labels si) ->
  let ls := target_in order d resp si in
  ls !! subsystemLabel = Some (SubsystemName si)
  /\ ls !! subsystemIdLabel = Some (SubsystemId si)
  /\ ls !! logDirLabel = Some (logDir_of resp si)
  /\ ls !! HostLabel = Some (LocalIP d)
  /\ forall k, ls !! String.append labelPrefix k = Labels si !! k.
Proof.
  intros Hperm ls.
  assert (Hres : forall key,
    (forall k, key <> String.append labelPrefix k) ->
    ls !! key
    = if decide (key = HostLabel) then Some (LocalIP d)
      else if decide (key = logDirLabel) then Some (logDir_of resp si)
      else if decide (key = subsystemIdLabel) then Some (SubsystemId si)
      else if decide (key = subsystemLabel) then Some (SubsystemName si)
      else None).
  { intros key Hkey. apply base_lookups. intros k v _. apply Hkey. }
  split; [|split; [|split; [|split]]].
  - rewrite Hres by (intros k; apply reserved_not_prefixed). reflexivity.
  - rewrite Hres by (intros k; apply reserved_not_prefixed). reflexivity.
  - rewrite Hres by (intros k; apply reserved_not_prefixed). reflexivity.
  - rewrite Hres by (intros k; apply reserved_not_prefixed). reflexivity.
  - intros k. destruct (Labels si !! k) as [v|] eqn:Ek.
    + apply range_Labels_entry.
      * rewrite Hperm. apply NoDup_fst_map_to_list.
      * apply list_elem_of_In. rewrite Hperm. by apply elem_of_map_to_list.
    + unfold ls. rewrite base_lookups.
      * destruct (reserved_not_prefixed k) as (H1 & H2 & H3 & H4).
        repeat (rewrite decide_False by congruence). done.
      * intros k' v' Hin E. apply labelPrefix_inj in E as <-.
        apply list_elem_of_In in Hin. rewrite Hperm in Hin.
        apply elem_of_map_to_list in Hin. congruence.
Qed.

(** The label set of a subsystem, whatever the order in which Go ranges
    over [si.Labels]: the four reserved labels hold the subsystem name,
    its id, the log directory (the subsystem's own, else the default
    directory or [/data/logs/] joined with the name, followed by a
    recursive glob) and the local IP; each user label [k] appears as
    [__label_k] with its value, and can never replace a reserved label. *)
Theorem target_labels order d resp si :
  order ≡ₚ map_to_list (Labels si) ->
  let ls := target_in order d resp si in
  ls !! subsystemLabel = Some (SubsystemName si)
  /\ ls !! subsystemIdLabel = Some (SubsystemId si)
  /\ ls !! logDirLabel = Some (logDir_of resp si)
  /\ ls !! HostLabel = Some (LocalIP d)
  /\ forall k, ls !! String.append labelPrefix k = Labels si !! k.
Proof. apply target_in_lookups. Qed.

(** [parseTargets] builds one target per subsystem, in the order of the
    response, and names the group after the address and the local IP. *)
Theorem parseTargets_targets d resp :
  length (Targets (parseTargets d resp)) = length (SubsystemInfos resp)
  /\ Source (parseTargets d resp)
     = String.append (Address d) (String ":" (LocalIP d))
  /\ forall i si,
       SubsystemInfos resp !! i = Some si ->
       exists ls,
         Targets (parseTargets d resp) !! i = Some ls
         /\ ls !! subsystemLabel = Some (SubsystemName si)
         /\ ls !! HostLabel = Some (LocalIP d)
         /\ forall k, ls !! String.append labelPrefix k = Labels si !! k.
Proof.
  unfold parseTargets. cbn [Targets Source]. split; [by rewrite length_map|].
  split; [done|]. intros i si Hi.
  eexists. split; [by rewrite list_lookup_fmap, Hi|].
  destruct (target_in_lookups (map_to_list (Labels si)) d resp si
              (reflexivity _)) as (Hs & _ & _ & Hh & Hk).
  done.
Qed.

End Targets.

Lemma target_labels_witness :
  let ls := target_in (H := Samples.filepath)
              (map_to_list (Labels Samples.subsystem))
              (mkDiscovery "http://sd" "10.1.1.1")
              (mkResponse "SZ" "D1" EmptyString [Samples.subsystem])
              Samples.subsystem in
  ls !! logDirLabel = Some "/data/logs//pay/**"%string
  /\ ls !! "__label_team"%string = Some "core"%string.
Proof.
  intros ls.
  destruct (target_labels (H := Samples.filepath)
              (map_to_list (Labels Samples.subsystem))
              (mkDiscovery "http://sd" "10.1.1.1")
              (mkResponse "SZ" "D1" EmptyString [Samples.subsystem])
              Samples.subsystem (reflexivity _))
    as (_ & _ & Hdir & _ & Hk).
  split; [exact Hdir|]. exact (Hk "team"%string).
Defined.

Lemma parseTargets_targets_witness :
  exists ls,
    Targets (parseTargets (H := Samples.filepath)
               (mkDiscovery "http://sd" "10.1.1.1")
               (mkResponse "SZ" "D1" EmptyString [Samples.subsystem])) !! 0%nat
    = Some ls
    /\ ls !! subsystemLabel = Some "pay"%string
    /\ ls !! HostLabel = Some "10.1.1.1"%string
    /\ forall k, ls !! String.append labelPrefix k
                 = Labels Samples.subsystem !! k.
Proof.
  destruct (parseTargets_targets (H := Samples.filepath)
              (mkDiscovery "http://sd" "10.1.1.1")
              (mkResponse "SZ" "D1" EmptyString [Samples.subsystem]))
    as (_ & _ & Hall).
  apply (Hall 0%nat Samples.subsystem). reflexivity.
Defined.

End WebhookFacts.
